(** * CyPM: Column Parity Mixers over GF(2)

    A shallow embedding of [src/cypm.py] (class [CPM]) together with the
    part of the SageMath matrix interface the class calls into, and the
    properties of the CPM algebra proved about it.

    Layout:
    - exceptions and the result monad (Python [raise]);
    - [GF2]: vectors and dense matrices over GF(2), modelling the Sage
      objects the source manipulates ([Matrix(GF(2), ...)], [+], [*],
      [identity_matrix], [inverse], [is_singular], [multiplicative_order],
      [nonzero_positions], ...);
    - the class [CPM], method by method, in source order;
    - the predicates of the proofs;
    - the linear algebra over GF(2) the class relies on: products,
      Gauss-Jordan inversion, multiplicative order;
    - the properties of the class: construction and comparison, the column
      utilities, evaluation and composition, inverse, order and powers;
    - the examples of the docstrings, evaluated;
    - further properties: the algebra of composition, inverses and
      involutions, the action on state matrices, the meaning of the column
      lists, powers. *)

From Stdlib Require Import String.
From Stdlib Require Import List Bool Arith ZArith Lia Permutation Sorted.
Import ListNotations.

(** ** Exceptions

    The source raises [ValueError] and [TypeError] with a message; the Sage
    calls it makes can raise as well. *)

Inductive exn : Type :=
| ValueError (msg : string)
| TypeError (msg : string)
| AttributeError (msg : string)
| ArithmeticError (msg : string)
| ZeroDivisionError (msg : string).

Inductive result (A : Type) : Type :=
| Ok (a : A)
| Raise (e : exn).

Arguments Ok {A} a.
Arguments Raise {A} e.

Definition bind {A B : Type} (c : result A) (k : A -> result B) : result B :=
  match c with
  | Ok a => k a
  | Raise e => Raise e
  end.

Notation "x <- c1 ;; c2" := (bind c1 (fun x => c2))
  (at level 61, c1 at next level, right associativity).

(** ** Vectors and matrices over GF(2) *)

Module GF2.

(** An element of GF(2) is a [bool]: addition is [xorb], multiplication is
    [andb].  A vector is the list of its entries. *)
Abbreviation vector := (list bool).

Definition vzero (n : nat) : vector := repeat false n.

Arguments vzero : simpl never.

(** Entrywise sum of two vectors. *)
Fixpoint vadd (u v : vector) : vector :=
  match u, v with
  | a :: u', b :: v' => xorb a b :: vadd u' v'
  | _, _ => []
  end.

(** [unit i n]: the vector of length [n] whose only 1 is at index [i]. *)
Fixpoint unit (i n : nat) {struct n} : vector :=
  match n with
  | 0 => []
  | S n' =>
      match i with
      | 0 => true :: vzero n'
      | S i' => false :: unit i' n'
      end
  end.

(** [v.nonzero_positions()]: the indices of the nonzero entries, ascending.
    [k] is the index of the head of [v]. *)
Fixpoint nonzero_positions_from (k : nat) (v : vector) : list nat :=
  match v with
  | [] => []
  | b :: v' =>
      if b then k :: nonzero_positions_from (S k) v'
      else nonzero_positions_from (S k) v'
  end.

Definition nonzero_positions (v : vector) : list nat :=
  nonzero_positions_from 0 v.

(** Row-vector times matrix, the matrix given by its rows [B], each of
    length [c]: the sum of the rows of [B] selected by the entries of [v]. *)
Fixpoint vecmat (c : nat) (v : vector) (B : list vector) : vector :=
  match v, B with
  | b :: v', r :: B' => vadd (if b then r else vzero c) (vecmat c v' B')
  | _, _ => vzero c
  end.

(** Dot product of two vectors. *)
Fixpoint dot (u v : vector) : bool :=
  match u, v with
  | a :: u', b :: v' => xorb (a && b) (dot u' v')
  | _, _ => false
  end.

(** Matrix (rows [A]) times column vector. *)
Definition matvec (A : list vector) (v : vector) : vector :=
  map (fun r => dot r v) A.

(** Sum and product of matrices given by their rows. *)
Fixpoint madd (A B : list vector) : list vector :=
  match A, B with
  | r :: A', s :: B' => vadd r s :: madd A' B'
  | _, _ => []
  end.

Definition mmul (c : nat) (A B : list vector) : list vector :=
  map (fun r => vecmat c r B) A.

Fixpoint identity_rows (n : nat) : list vector :=
  match n with
  | 0 => []
  | S n' => (true :: vzero n') :: map (cons false) (identity_rows n')
  end.

(** A Sage matrix over GF(2): its dimensions and its rows.  The dimensions
    are stored because a matrix with no rows still has a number of
    columns. *)
Record matrix : Type := mkMatrix {
  nrows : nat;
  ncols : nat;
  rows : list vector
}.

(** Every Sage matrix is rectangular, as its dimensions say. *)
Definition wf (M : matrix) : Prop :=
  length (rows M) = nrows M /\
  Forall (fun r => length r = ncols M) (rows M).

Definition wfb (M : matrix) : bool :=
  (length (rows M) =? nrows M) &&
  forallb (fun r => length r =? ncols M) (rows M).

Definition rows_eqb (A B : list vector) : bool :=
  if list_eq_dec (list_eq_dec bool_dec) A B then true else false.

(** [A == B] on matrices: matrices of different dimensions are unequal. *)
Definition eqb (A B : matrix) : bool :=
  (nrows A =? nrows B) && (ncols A =? ncols B) && rows_eqb (rows A) (rows B).

Definition is_square (M : matrix) : bool := nrows M =? ncols M.

Definition is_zero (M : matrix) : bool :=
  forallb (forallb negb) (rows M).

Definition zero_matrix (r c : nat) : matrix :=
  mkMatrix r c (repeat (vzero c) r).

(** [identity_matrix(GF(2), n)] *)
Definition identity_matrix (n : nat) : matrix :=
  mkMatrix n n (identity_rows n).

(** [A + B]; Sage raises [TypeError] when the dimensions differ. *)
Definition add (A B : matrix) : result matrix :=
  if (nrows A =? nrows B) && (ncols A =? ncols B) then
    Ok (mkMatrix (nrows A) (ncols A) (madd (rows A) (rows B)))
  else Raise (TypeError "unsupported operand parent(s) for +").

(** [A - B]: over GF(2) subtraction is addition. *)
Definition sub (A B : matrix) : result matrix :=
  if (nrows A =? nrows B) && (ncols A =? ncols B) then
    Ok (mkMatrix (nrows A) (ncols A) (madd (rows A) (rows B)))
  else Raise (TypeError "unsupported operand parent(s) for -").

(** [A * B]; Sage raises [TypeError] unless [A.ncols() == B.nrows()]. *)
Definition mul (A B : matrix) : result matrix :=
  if ncols A =? nrows B then
    Ok (mkMatrix (nrows A) (ncols B) (mmul (ncols B) (rows A) (rows B)))
  else Raise (TypeError "unsupported operand parent(s) for *").

(** [v * B] for a vector [v]. *)
Definition vec_mul (v : vector) (B : matrix) : result vector :=
  if length v =? nrows B then Ok (vecmat (ncols B) v (rows B))
  else Raise (TypeError "unsupported operand parent(s) for *").

(** *** Inversion: Gauss-Jordan elimination

    Sage computes [M.inverse()] and [M.is_singular()] by row reduction.
    The model reduces the augmented matrix [(M | I)], one column of the left
    half at a time.  An augmented row is a pair: what is left of the row of
    the left half (the columns not yet processed) and the full row of the
    right half.  [done] holds the rows already used as pivots, in column
    order, [todo] the others. *)

Abbreviation aug_row := (list bool * list bool)%type.

(** The first row of [todo] with a 1 in the current column, and the rows
    that remain. *)
Fixpoint find_pivot (todo : list aug_row) : option (aug_row * list aug_row) :=
  match todo with
  | [] => None
  | x :: xs =>
      if hd false (fst x) then Some (x, xs)
      else
        match find_pivot xs with
        | Some (p, rest) => Some (p, x :: rest)
        | None => None
        end
  end.

(** Clear the current column of row [x] with the pivot row [p] (whose
    current column has been dropped already), and drop that column. *)
Definition eliminate (p x : aug_row) : aug_row :=
  match fst x with
  | true :: t => (vadd t (fst p), vadd (snd x) (snd p))
  | false :: t => (t, snd x)
  | [] => ([], snd x)
  end.

(** [k] columns remain to be processed. *)
Fixpoint gauss_jordan (k : nat) (done todo : list aug_row)
  : option (list aug_row) :=
  match k with
  | 0 => Some done
  | S k' =>
      match find_pivot todo with
      | None => None
      | Some (p, rest) =>
          let p' := (tl (fst p), snd p) in
          gauss_jordan k' (map (eliminate p') done ++ [p'])
                          (map (eliminate p') rest)
      end
  end.

Definition inverse_rows (n : nat) (A : list vector) : option (list vector) :=
  option_map (map snd) (gauss_jordan n [] (combine A (identity_rows n))).

(** [M.is_singular()] *)
Definition is_singular (M : matrix) : result bool :=
  if is_square M then
    match inverse_rows (nrows M) (rows M) with
    | Some _ => Ok false
    | None => Ok true
    end
  else Raise (ValueError "self must be a square matrix").

(** [M.inverse()] *)
Definition inverse (M : matrix) : result matrix :=
  if is_square M then
    match inverse_rows (nrows M) (rows M) with
    | Some N => Ok (mkMatrix (nrows M) (nrows M) N)
    | None => Raise (ZeroDivisionError "matrix must be nonsingular")
    end
  else Raise (ArithmeticError "self must be a square matrix").

(** *** Multiplicative order

    [M.multiplicative_order()] is the least [k >= 1] with [M^k = I]; Sage
    raises [ArithmeticError] when [M] is not invertible.  The model looks
    for it among the successive powers of [M]. *)

Fixpoint mpow (n : nat) (A : list vector) (k : nat) : list vector :=
  match k with
  | 0 => identity_rows n
  | S k' => mmul n (mpow n A k') A
  end.

(** One step of the search, at exponent [k] with [P = A^k]: stop with [k]
    if [P] is the identity, else go on with [k + 1]. *)
Definition order_step (n : nat) (A : list vector) (st : nat * list vector)
  : (nat * list vector) + nat :=
  let (k, P) := st in
  if rows_eqb P (identity_rows n) then inr k else inl (S k, mmul n P A).

(** [2 ^ d] steps of the search, unless it stops before. *)
Fixpoint order_search (n : nat) (A : list vector) (d : nat)
    (st : nat * list vector) : (nat * list vector) + nat :=
  match d with
  | 0 => order_step n A st
  | S d' =>
      match order_search n A d' st with
      | inl st' => order_search n A d' st'
      | inr k => inr k
      end
  end.

(** There are [2 ^ (n * n)] matrices of size [n], so an invertible matrix
    has an order of at most that. *)
Definition multiplicative_order (M : matrix) : result Z :=
  if is_square M then
    match inverse_rows (nrows M) (rows M) with
    | None =>
        Raise (ArithmeticError
                 "self must be invertible to have a multiplicative order")
    | Some _ =>
        match order_search (nrows M) (rows M) (nrows M * nrows M)
                (1, rows M) with
        | inr k => Ok (Z.of_nat k)
        | inl _ =>
            Raise (ArithmeticError
                     "self must be invertible to have a multiplicative order")
        end
    end
  else
    Raise (ArithmeticError
             "self must be invertible to have a multiplicative order").

(** [M.nonzero_positions()] for a matrix [M]: the pairs [(i, j)] of the
    nonzero entries, row by row. *)
Fixpoint matrix_nonzero_positions_from (i : nat) (A : list vector)
  : list (nat * nat) :=
  match A with
  | [] => []
  | r :: A' =>
      map (fun j => (i, j)) (nonzero_positions r) ++
      matrix_nonzero_positions_from (S i) A'
  end.

Definition matrix_nonzero_positions (M : matrix) : list (nat * nat) :=
  matrix_nonzero_positions_from 0 (rows M).

(** *** Construction from nested data

    [Matrix(GF(2), l)] for a list (or tuple) [l] of rows of integers: the
    entries are reduced modulo 2; rows of unequal length are refused. *)
Definition Matrix_of_list (l : list (list Z)) : result matrix :=
  let c := match l with [] => 0 | r :: _ => length r end in
  if forallb (fun r => length r =? c) l then
    Ok (mkMatrix (length l) c (map (map Z.odd) l))
  else Raise (ValueError "inconsistent number of columns").

End GF2.

(** ** The class [CPM] *)

(** A Sage matrix as the constructor may receive it: over GF(2), or over
    another base ring (the integers stand for those). *)
Inductive sage_matrix : Type :=
| MatGF2 (M : GF2.matrix)
| MatZZ (r c : nat) (entries : list (list Z)).

(** The argument [Z] of the constructor: a list or tuple of rows, or a
    matrix. *)
Inductive Zarg : Type :=
| ZList (l : list (list Z))
| ZMatrix (M : sage_matrix).

(** What [sum(A)] evaluates to: Python's [sum] starts from the integer 0,
    which is the result when [A] has no row. *)
Inductive sum_value : Type :=
| IntZero
| Vec (v : GF2.vector).

(** What [column_parity(A) * Z] evaluates to: a vector, or, when the column
    parity is the integer 0, the matrix [0 * Z]. *)
Inductive effect_value : Type :=
| EffectVec (v : GF2.vector)
| EffectMat (M : GF2.matrix).

(** What [effect(A).nonzero_positions()] evaluates to: column indices for
    a vector, pairs of indices for a matrix. *)
Inductive positions : Type :=
| VecPositions (l : list nat)
| MatPositions (l : list (nat * nat)).

Record CPM : Type := mkCPM {
  _nrows : Z;
  _ncols : nat;
  _Z : GF2.matrix
}.

Module Cypm.

Import GF2.

(** [CPM.__init__] *)
Definition new (m : Z) (Zin : Zarg) : result CPM :=
  if (m <? 1)%Z then Raise (ValueError "m must be >= 1")
  else
    Zm <- match Zin with
          | ZList l => M <- Matrix_of_list l ;; Ok (MatGF2 M)
          | ZMatrix M => Ok M
          end ;;
    match Zm with
    | MatZZ _ _ _ =>
        Raise (ValueError "parity folding matrix must be defined over GF(2)")
    | MatGF2 M =>
        if negb (is_square M) then Raise (TypeError "Z must be a square matrix")
        else Ok (mkCPM m (GF2.ncols M) M)
    end.

(** [CPM.column_parity]; [A] is a matrix over GF(2), which
    [Matrix(GF(2), A)] returns as it is. *)
Definition column_parity (A : matrix) : sum_value :=
  match rows A with
  | [] => IntZero
  | r :: rs => Vec (fold_left vadd rs r)
  end.

(** [CPM.expanded_column_parity]: [Matrix(GF(2), [row for _ in range(m)])]
    is the matrix with no row and no column when [m = 0]. *)
Definition expanded_column_parity (A : matrix) : matrix :=
  match column_parity A with
  | IntZero => mkMatrix 0 0 []
  | Vec row => mkMatrix (GF2.nrows A) (length row) (repeat row (GF2.nrows A))
  end.

(** [CPM.odd_columns] *)
Definition odd_columns (A : matrix) : result (list nat) :=
  match column_parity A with
  | IntZero =>
      Raise (AttributeError
               "'int' object has no attribute 'nonzero_positions'")
  | Vec col_parity => Ok (nonzero_positions col_parity)
  end.

(** [CPM.even_columns]: the comprehension evaluates [odd_columns(A)] for
    each [e] of [range(A.ncols())]. *)
Fixpoint even_columns_loop (A : matrix) (es : list nat) : result (list nat) :=
  match es with
  | [] => Ok []
  | e :: es' =>
      odd <- odd_columns A ;;
      rest <- even_columns_loop A es' ;;
      Ok (if existsb (Nat.eqb e) odd then rest else e :: rest)
  end.

Definition even_columns (A : matrix) : result (list nat) :=
  even_columns_loop A (seq 0 (GF2.ncols A)).

Definition nrows (self : CPM) : Z := _nrows self.

Definition ncols (self : CPM) : nat := _ncols self.

Definition parity_folding_matrix (self : CPM) : matrix := _Z self.

(** [CPM.effect] *)
Definition effect (self : CPM) (A : matrix) : result effect_value :=
  let Z := parity_folding_matrix self in
  match column_parity A with
  | IntZero => Ok (EffectMat (zero_matrix (GF2.nrows Z) (GF2.ncols Z)))
  | Vec v => e <- vec_mul v Z ;; Ok (EffectVec e)
  end.

(** [CPM.expanded_effect] *)
Definition expanded_effect (self : CPM) (A : matrix) : result matrix :=
  let Z := parity_folding_matrix self in
  mul (expanded_column_parity A) Z.

(** [CPM.affected_columns] *)
Definition affected_columns (self : CPM) (A : matrix) : result positions :=
  e <- effect self A ;;
  match e with
  | EffectVec v => Ok (VecPositions (nonzero_positions v))
  | EffectMat M => Ok (MatPositions (matrix_nonzero_positions M))
  end.

(** [i in affected] for an integer [i]: an integer is never equal to a
    pair. *)
Definition position_mem (i : nat) (affected : positions) : bool :=
  match affected with
  | VecPositions l => existsb (Nat.eqb i) l
  | MatPositions _ => false
  end.

(** [CPM.unaffected_columns]: the comprehension evaluates
    [self.affected_columns(A)] for each [i] of [range(self.ncols())]. *)
Fixpoint unaffected_columns_loop (self : CPM) (A : matrix) (idx : list nat)
  : result (list nat) :=
  match idx with
  | [] => Ok []
  | i :: idx' =>
      affected <- affected_columns self A ;;
      rest <- unaffected_columns_loop self A idx' ;;
      Ok (if position_mem i affected then rest else i :: rest)
  end.

Definition unaffected_columns (self : CPM) (A : matrix) : result (list nat) :=
  unaffected_columns_loop self A (seq 0 (ncols self)).

(** [CPM.__call__] *)
Definition call (self : CPM) (A : matrix) : result matrix :=
  E <- expanded_effect self A ;;
  add A E.

(** [CPM.compose]; [other] is a [CPM] by its type. *)
Definition compose (self other : CPM) : result CPM :=
  if negb (nrows self =? nrows other)%Z || negb (ncols self =? ncols other)
  then Raise (ValueError "the dimension of the CPM must be equal")
  else
    let m := nrows self in
    Z <- (if Z.even m then
            add (parity_folding_matrix self) (parity_folding_matrix other)
          else
            let I := identity_matrix (ncols self) in
            a <- add (parity_folding_matrix self) I ;;
            b <- add (parity_folding_matrix other) I ;;
            p <- mul a b ;;
            add p I) ;;
    new m (ZMatrix (MatGF2 Z)).

(** [CPM.associated_matrix] *)
Definition associated_matrix (self : CPM) : result matrix :=
  add (parity_folding_matrix self) (identity_matrix (ncols self)).

(** [CPM.order] *)
Definition order (self : CPM) : result Z :=
  let m := nrows self in
  if Z.even m then Ok 2%Z
  else M <- associated_matrix self ;; multiplicative_order M.

(** [CPM.is_invertible]; [or] does not evaluate its right operand when the
    left one is true. *)
Definition is_invertible (self : CPM) : result bool :=
  let m := nrows self in
  if Z.even m then Ok true
  else
    M <- associated_matrix self ;;
    s <- is_singular M ;;
    Ok (negb s).

(** [CPM.inverse] *)
Definition inverse (self : CPM) : result CPM :=
  inv <- is_invertible self ;;
  if negb inv then Raise (ValueError "CPM is not invertible")
  else
    let m := nrows self in
    if Z.even m then Ok self
    else
      M <- associated_matrix self ;;
      Mi <- GF2.inverse M ;;
      Z <- sub Mi (identity_matrix (ncols self)) ;;
      new m (ZMatrix (MatGF2 Z)).

(** [CPM.is_equal]; [other] is a [CPM] by its type. *)
Definition is_equal (self other : CPM) : result bool :=
  Ok ((nrows self =? nrows other)%Z &&
      GF2.eqb (parity_folding_matrix self) (parity_folding_matrix other)).

(** [CPM.is_identity] *)
Definition is_identity (self : CPM) : bool :=
  is_zero (parity_folding_matrix self).

(** [CPM.is_involution] *)
Definition is_involution (self : CPM) : result bool :=
  let m := nrows self in
  if Z.even m then Ok true
  else c <- compose self self ;; Ok (is_identity c).

(** [CPM.__eq__] *)
Definition eq (self other : CPM) : result bool := is_equal self other.

(** The loop of [CPM.__pow__]: [theta = theta.compose(self)], [k] times. *)
Fixpoint pow_loop (self : CPM) (k : nat) (theta : CPM) : result CPM :=
  match k with
  | 0 => Ok theta
  | S k' => theta' <- compose theta self ;; pow_loop self k' theta'
  end.

(** [CPM.__pow__] *)
Definition pow (self : CPM) (e : Z) : result CPM :=
  if (e <? 1)%Z then Raise (ValueError "e must be >= 1")
  else
    let m := nrows self in
    let Z := parity_folding_matrix self in
    theta <- new m (ZMatrix (MatGF2 Z)) ;;
    pow_loop self (Z.to_nat (e - 1)) theta.

(** The values the constructor builds: [m >= 1] and a square matrix [Z]
    with [_ncols] columns. *)
Definition valid (theta : CPM) : Prop :=
  (1 <= _nrows theta)%Z /\
  wf (_Z theta) /\
  GF2.nrows (_Z theta) = _ncols theta /\
  GF2.ncols (_Z theta) = _ncols theta.

Definition validb (theta : CPM) : bool :=
  (1 <=? _nrows theta)%Z && wfb (_Z theta) &&
  (GF2.nrows (_Z theta) =? _ncols theta) &&
  (GF2.ncols (_Z theta) =? _ncols theta).

End Cypm.

(** The error kinds of the specification, as the source raises them. *)
Definition InvalidDimension : exn := ValueError "m must be >= 1".

Definition InvalidField : exn :=
  ValueError "parity folding matrix must be defined over GF(2)".

Definition NotSquare : exn := TypeError "Z must be a square matrix".

Definition DimensionMismatch : exn :=
  ValueError "the dimension of the CPM must be equal".

Definition NotInvertible : exn := ValueError "CPM is not invertible".

Definition InvalidExponent : exn := ValueError "e must be >= 1".

(** All the entries of the constructor's argument are 0 or 1. *)
Definition binary_entries (l : list (list Z)) : bool :=
  forallb (forallb (fun z => (z =? 0)%Z || (z =? 1)%Z)) l.

Definition entries_binary (Zin : Zarg) : bool :=
  match Zin with
  | ZList l => binary_entries l
  | ZMatrix (MatGF2 _) => true
  | ZMatrix (MatZZ _ _ l) => binary_entries l
  end.

(** ** Examples from the docstrings *)

Definition bits (l : list (list Z)) : list GF2.vector := map (map Z.odd) l.

Definition Z8 : list (list Z) :=
  [[1;0;0;0;0;0;0;1];
   [1;1;0;0;0;0;0;0];
   [0;1;1;0;0;0;0;0];
   [0;0;1;1;0;0;0;0];
   [0;0;0;1;1;0;0;0];
   [0;0;0;0;1;1;0;0];
   [0;0;0;0;0;1;1;0];
   [0;0;0;0;0;0;1;1]]%Z.

Definition theta8 : result CPM := Cypm.new 5 (ZList Z8).

Definition theta3 : result CPM :=
  Cypm.new 5 (ZList [[1; 1; 0]; [1; 0; 1]; [0; 1; 0]]%Z).

Definition A58 : GF2.matrix :=
  GF2.mkMatrix 5 8 (bits
  [[0;0;0;0;0;1;0;0];
   [1;0;0;0;0;1;0;0];
   [0;0;0;0;0;1;0;0];
   [0;0;1;0;0;1;0;0];
   [0;1;1;0;0;1;0;0]]%Z).

(** ** Predicates of the proofs *)

(** Column [j] of a matrix given by its rows, and the number of ones of a
    vector. *)
Definition column (j : nat) (A : list (list bool)) : list bool :=
  map (fun r => nth j r false) A.

Definition count_ones (v : list bool) : nat := count_occ bool_dec v true.

(** The folding matrix of a composition, by the parity of [m]. *)
Definition compose_rows (m : Z) (n : nat) (Zr Zr' : list (list bool))
  : list (list bool) :=
  if Z.even m then GF2.madd Zr Zr'
  else GF2.madd (GF2.mmul n (GF2.madd Zr (GF2.identity_rows n))
                              (GF2.madd Zr' (GF2.identity_rows n)))
                (GF2.identity_rows n).

(** The folding matrix after the loop of [__pow__] has run [k] times from
    the folding matrix [X]. *)
Fixpoint pow_rows (m : Z) (n : nat) (Zr : list (list bool)) (k : nat)
    (X : list (list bool)) : list (list bool) :=
  match k with
  | 0 => X
  | S k' => pow_rows m n Zr k' (compose_rows m n X Zr)
  end.

(** The identity CPM: the folding matrix is zero. *)
Definition identity_cpm (m : Z) (n : nat) : CPM :=
  mkCPM m n (GF2.zero_matrix n n).

(** [theta] applied [k] times. *)
Fixpoint call_iter (theta : CPM) (k : nat) (A : GF2.matrix)
  : result GF2.matrix :=
  match k with
  | 0 => Ok A
  | S k' => B <- call_iter theta k' A ;; Cypm.call theta B
  end.

(** All rows have length [c]. *)
Definition rect (c : nat) (B : list (list bool)) : Prop :=
  Forall (fun r => length r = c) B.

(** [v] is a combination of the rows [R] (each of length [n]). *)
Definition spans (n : nat) (R : list (list bool)) (v : list bool) : Prop :=
  exists s, length s = length R /\ GF2.vecmat n s R = v.

(** [X], of size [n], has a left inverse. *)
Definition left_invertible (n : nat) (X : list (list bool)) : Prop :=
  exists Y, rect n Y /\ GF2.mmul n Y X = GF2.identity_rows n.

(** The invariant of the elimination of the matrix [M] of size [n], after
    [c] columns, with [k] to go.  The right half [r] of an augmented row
    records the combination of the rows of [M] that the row is: [r * M] is
    the row of the left half in full, whose first [c] entries are those of
    a unit vector for a pivot row and zero for the others.  The right
    halves still span the unit vectors. *)
Definition gj_inv (n : nat) (M : list (list bool)) (c k : nat)
    (done todo : list (list bool * list bool)) : Prop :=
  c + k = n /\
  length done = c /\
  length todo = k /\
  (forall x, In x (done ++ todo) -> length (fst x) = k /\ length (snd x) = n) /\
  (forall i x, nth_error done i = Some x ->
     GF2.vecmat n (snd x) M = GF2.unit i c ++ fst x) /\
  (forall x, In x todo -> GF2.vecmat n (snd x) M = GF2.vzero c ++ fst x) /\
  (forall i, i < n -> spans n (map snd (done ++ todo)) (GF2.unit i n)).

(** All lists of length [n] over [xs]. *)
Fixpoint all_lists {A : Type} (xs : list A) (n : nat) : list (list A) :=
  match n with
  | 0 => [[]]
  | S n' => flat_map (fun x => map (cons x) (all_lists xs n')) xs
  end.

(** All matrices of size [n], by their rows. *)
Definition all_matrices (n : nat) : list (list (list bool)) :=
  all_lists (all_lists [false; true] n) n.

(** * Vectors *)

Section VectorFacts.

Import GF2.

Lemma vzero_length (n : nat) : length (vzero n) = n.
Proof. apply repeat_length. Qed.

Lemma vadd_length (u v : vector) :
  length u = length v -> length (vadd u v) = length u.
Proof.
  revert v; induction u as [|a u IH]; intros [|b v] H; simpl in *;
    try discriminate; auto.
Qed.

Lemma vadd_comm (u v : vector) : vadd u v = vadd v u.
Proof.
  revert v; induction u as [|a u IH]; intros [|b v]; simpl; auto.
  now rewrite xorb_comm, IH.
Qed.

Lemma vadd_assoc (u v w : vector) : vadd (vadd u v) w = vadd u (vadd v w).
Proof.
  revert v w; induction u as [|a u IH]; intros [|b v] [|c w]; simpl; auto.
  now rewrite xorb_assoc, IH.
Qed.

Lemma vzero_S (n : nat) : vzero (S n) = false :: vzero n.
Proof. reflexivity. Qed.

Lemma vadd_zero_r (u : vector) : vadd u (vzero (length u)) = u.
Proof.
  induction u as [|a u IH]; auto.
  simpl length. rewrite vzero_S. simpl. now rewrite xorb_false_r, IH.
Qed.

Lemma vadd_vzero_r (c : nat) (u : vector) :
  length u = c -> vadd u (vzero c) = u.
Proof. intros <-. apply vadd_zero_r. Qed.

Lemma vadd_zero_l (u : vector) : vadd (vzero (length u)) u = u.
Proof. rewrite vadd_comm; apply vadd_zero_r. Qed.

Lemma vadd_self (u : vector) : vadd u u = vzero (length u).
Proof.
  induction u as [|a u IH]; auto.
  simpl. now rewrite vzero_S, xorb_nilpotent, IH.
Qed.

Lemma vadd_swap (a b c d : vector) :
  vadd (vadd a b) (vadd c d) = vadd (vadd a c) (vadd b d).
Proof.
  rewrite !vadd_assoc. f_equal.
  rewrite <- !vadd_assoc. f_equal. apply vadd_comm.
Qed.

Lemma vadd_cancel_r (u v : vector) :
  length u = length v -> vadd (vadd u v) v = u.
Proof.
  intros H. rewrite vadd_assoc, vadd_self, <- H. apply vadd_zero_r.
Qed.

Lemma vadd_app (u1 u2 v1 v2 : vector) :
  length u1 = length v1 ->
  vadd (u1 ++ u2) (v1 ++ v2) = vadd u1 v1 ++ vadd u2 v2.
Proof.
  revert v1; induction u1 as [|a u1 IH]; intros [|b v1] H; simpl in *;
    try discriminate; auto.
  f_equal; auto.
Qed.

Lemma vzero_app (a b : nat) : vzero a ++ vzero b = vzero (a + b).
Proof. unfold vzero. now rewrite repeat_app. Qed.

Lemma vzero_snoc (n : nat) : vzero n ++ [false] = vzero (S n).
Proof.
  change [false] with (vzero 1). rewrite vzero_app. f_equal. lia.
Qed.

Lemma unit_length (i n : nat) : length (unit i n) = n.
Proof.
  revert i; induction n as [|n IH]; intros [|i]; simpl; auto.
  now rewrite vzero_length.
Qed.

Lemma unit_ge (i n : nat) : n <= i -> unit i n = vzero n.
Proof.
  revert i; induction n as [|n IH]; intros [|i] H; simpl; auto; try lia.
  rewrite IH by lia. reflexivity.
Qed.

Lemma unit_snoc (i n : nat) : unit i (S n) = unit i n ++ [i =? n].
Proof.
  revert i; induction n as [|n IH]; intros [|i]; try reflexivity.
  - simpl. now rewrite vzero_snoc.
  - specialize (IH i). simpl in *. now rewrite IH.
Qed.

End VectorFacts.

(** * Matrices given by their rows *)

Section RowsFacts.

Import GF2.

Lemma rect_cons (c : nat) (r : vector) (B : list vector) :
  rect c (r :: B) <-> length r = c /\ rect c B.
Proof. unfold rect. split; [intros H; inversion H; auto | intros []; auto]. Qed.

Lemma vecmat_length (c : nat) (v : vector) (B : list vector) :
  rect c B -> length (vecmat c v B) = c.
Proof.
  revert B; induction v as [|b v IH]; intros [|r B] H; simpl;
    try apply vzero_length.
  apply rect_cons in H as [Hr HB].
  rewrite vadd_length.
  - destruct b; auto using vzero_length.
  - rewrite IH by assumption. destruct b; auto using vzero_length.
Qed.

Lemma vecmat_nil_r (c : nat) (v : vector) : vecmat c v [] = vzero c.
Proof. destruct v; reflexivity. Qed.

Lemma vecmat_zero_l (c k : nat) (B : list vector) :
  rect c B -> vecmat c (vzero k) B = vzero c.
Proof.
  revert B; induction k as [|k IH]; intros [|r B] H; try reflexivity.
  apply rect_cons in H as [Hr HB].
  rewrite vzero_S. simpl. rewrite IH by assumption.
  rewrite <- (vzero_length c) at 1. apply vadd_zero_l.
Qed.

Lemma vadd_select (c : nat) (a b : bool) (r : vector) :
  length r = c ->
  (if xorb a b then r else vzero c) =
  vadd (if a then r else vzero c) (if b then r else vzero c).
Proof.
  intros H. destruct a, b; simpl.
  - now rewrite vadd_self, H.
  - now rewrite <- H, vadd_zero_r.
  - now rewrite <- H, vadd_zero_l.
  - rewrite <- (vzero_length c) at 2. now rewrite vadd_zero_l.
Qed.

(** [vecmat] is linear in the vector ... *)
Lemma vecmat_vadd_l (c : nat) (u w : vector) (B : list vector) :
  length u = length w -> rect c B ->
  vecmat c (vadd u w) B = vadd (vecmat c u B) (vecmat c w B).
Proof.
  revert w B; induction u as [|a u IH]; intros [|b w] [|r B] Hl HB;
    simpl in *; try discriminate;
    try (rewrite <- (vzero_length c) at 2; now rewrite vadd_zero_l).
  apply rect_cons in HB as [Hr HB].
  rewrite IH by (auto; lia).
  rewrite (vadd_select c a b r Hr). apply vadd_swap.
Qed.

(** ... and in the matrix. *)
Lemma vecmat_madd_r (c : nat) (v : vector) (A B : list vector) :
  length A = length B -> rect c A -> rect c B ->
  vecmat c v (madd A B) = vadd (vecmat c v A) (vecmat c v B).
Proof.
  revert A B; induction v as [|b v IH]; intros [|r A] [|s B] Hl HA HB;
    simpl in *; try discriminate;
    try (rewrite <- (vzero_length c) at 2; now rewrite vadd_zero_l).
  apply rect_cons in HA as [Hr HA]. apply rect_cons in HB as [Hs HB].
  rewrite IH by (auto; lia).
  rewrite <- vadd_swap. f_equal.
  destruct b; auto.
  rewrite <- (vzero_length c) at 2. now rewrite vadd_zero_l.
Qed.

Lemma mmul_length (c : nat) (A B : list vector) :
  length (mmul c A B) = length A.
Proof. apply length_map. Qed.

Lemma rect_mmul (c : nat) (A B : list vector) :
  rect c B -> rect c (mmul c A B).
Proof.
  intros HB. unfold rect, mmul. apply Forall_map, Forall_forall.
  intros r _. now apply vecmat_length.
Qed.

(** Associativity, one row at a time. *)
Lemma vecmat_assoc (k c : nat) (v : vector) (A B : list vector) :
  rect k A -> length B = k -> rect c B ->
  vecmat c (vecmat k v A) B = vecmat c v (mmul c A B).
Proof.
  intros HA Hl HB.
  revert A HA; induction v as [|b v IH]; intros [|r A] HA; simpl;
    try now apply vecmat_zero_l.
  apply rect_cons in HA as [Hr HA].
  rewrite vecmat_vadd_l.
  - rewrite IH by assumption. f_equal.
    destruct b; auto. now apply vecmat_zero_l.
  - rewrite vecmat_length by assumption.
    destruct b; auto using vzero_length.
  - assumption.
Qed.

Lemma mmul_assoc (k c : nat) (A B C : list vector) :
  rect k B -> length C = k -> rect c C ->
  mmul c (mmul k A B) C = mmul c A (mmul c B C).
Proof.
  intros HB Hl HC. unfold mmul at 1 2 3. rewrite map_map.
  apply map_ext. intros r. now apply vecmat_assoc.
Qed.

Lemma identity_rows_length (n : nat) : length (identity_rows n) = n.
Proof. induction n as [|n IH]; simpl; auto. now rewrite length_map, IH. Qed.

Lemma rect_identity (n : nat) : rect n (identity_rows n).
Proof.
  induction n as [|n IH]; simpl; constructor.
  - simpl. now rewrite vzero_length.
  - apply Forall_map. eapply Forall_impl; [|exact IH].
    intros r Hr. simpl. now rewrite Hr.
Qed.

Lemma vecmat_cons_false (c : nat) (v : vector) (B : list vector) :
  vecmat (S c) v (map (cons false) B) = false :: vecmat c v B.
Proof.
  revert B; induction v as [|b v IH]; intros [|r B]; simpl; auto.
  rewrite IH. destruct b; auto.
Qed.

Lemma vecmat_identity_r (n : nat) (v : vector) :
  length v = n -> vecmat n v (identity_rows n) = v.
Proof.
  revert v; induction n as [|n IH]; intros [|b v] H; simpl in *;
    try discriminate; auto.
  rewrite vecmat_cons_false, IH by lia.
  destruct b; rewrite ?vzero_S; simpl; f_equal;
    replace n with (length v) by lia; apply vadd_zero_l.
Qed.

Lemma mmul_identity_r (n : nat) (A : list vector) :
  rect n A -> mmul n A (identity_rows n) = A.
Proof.
  intros HA. unfold mmul. rewrite <- (map_id A) at 2.
  apply map_ext_in. intros r Hr.
  apply vecmat_identity_r. eapply Forall_forall in HA; eauto.
Qed.

Lemma vecmat_cons_false_l (c : nat) (v r : vector) (B : list vector) :
  rect c B -> vecmat c (false :: v) (r :: B) = vecmat c v B.
Proof.
  intros HB. simpl.
  rewrite <- (vecmat_length c v B HB) at 1. apply vadd_zero_l.
Qed.

Lemma mmul_identity_l (c n : nat) (B : list vector) :
  length B = n -> rect c B -> mmul c (identity_rows n) B = B.
Proof.
  unfold mmul.
  revert B; induction n as [|n IH]; intros [|r B] Hl HB; simpl in *;
    try discriminate; auto.
  apply rect_cons in HB as [Hr HB]. f_equal.
  - rewrite vecmat_zero_l by assumption.
    rewrite <- Hr. apply vadd_zero_r.
  - rewrite map_map.
    transitivity (map (fun v => vecmat c v B) (identity_rows n)).
    + apply map_ext. intros v. now apply vecmat_cons_false_l.
    + apply IH; auto; lia.
Qed.

Lemma madd_length (A B : list vector) :
  length A = length B -> length (madd A B) = length A.
Proof.
  revert B; induction A as [|r A IH]; intros [|s B] H; simpl in *;
    try discriminate; auto.
Qed.

Lemma rect_madd (c : nat) (A B : list vector) :
  rect c A -> rect c B -> rect c (madd A B).
Proof.
  revert B; induction A as [|r A IH]; intros [|s B] HA HB; simpl;
    try constructor.
  - apply rect_cons in HA as [Hr HA]. apply rect_cons in HB as [Hs HB].
    rewrite vadd_length; congruence.
  - apply rect_cons in HA as [Hr HA]. apply rect_cons in HB as [Hs HB].
    now apply IH.
Qed.

Lemma madd_comm (A B : list vector) : madd A B = madd B A.
Proof.
  revert B; induction A as [|r A IH]; intros [|s B]; simpl; auto.
  now rewrite vadd_comm, IH.
Qed.

Lemma madd_assoc (A B C : list vector) :
  madd (madd A B) C = madd A (madd B C).
Proof.
  revert B C; induction A as [|r A IH]; intros [|s B] [|t C]; simpl; auto.
  now rewrite vadd_assoc, IH.
Qed.

Lemma madd_self (c : nat) (A : list vector) :
  rect c A -> madd A A = repeat (vzero c) (length A).
Proof.
  induction A as [|r A IH]; intros HA; simpl; auto.
  apply rect_cons in HA as [Hr HA].
  now rewrite vadd_self, Hr, IH.
Qed.

Lemma madd_cancel_r (c : nat) (A B : list vector) :
  length A = length B -> rect c A -> rect c B ->
  madd (madd A B) B = A.
Proof.
  revert B; induction A as [|r A IH]; intros [|s B] Hl HA HB; simpl in *;
    try discriminate; auto.
  apply rect_cons in HA as [Hr HA]. apply rect_cons in HB as [Hs HB].
  rewrite vadd_cancel_r by congruence. f_equal. apply IH; auto.
Qed.

End RowsFacts.

(** * Dot products and spans *)

Section SpanFacts.

Import GF2.

Lemma dot_zero_l (n : nat) (v : vector) : dot (vzero n) v = false.
Proof.
  revert v; induction n as [|n IH]; intros [|b v]; try reflexivity.
  rewrite vzero_S. simpl. apply IH.
Qed.

Lemma dot_zero_r (n : nat) (u : vector) : dot u (vzero n) = false.
Proof.
  revert u; induction n as [|n IH]; intros [|a u]; try reflexivity.
  rewrite vzero_S. simpl. now rewrite IH, andb_false_r.
Qed.

Lemma dot_app (u1 u2 v1 v2 : vector) :
  length u1 = length v1 ->
  dot (u1 ++ u2) (v1 ++ v2) = xorb (dot u1 v1) (dot u2 v2).
Proof.
  revert v1; induction u1 as [|a u1 IH]; intros [|b v1] H; simpl in *;
    try discriminate.
  - now destruct (dot u2 v2).
  - rewrite IH by lia. now rewrite xorb_assoc.
Qed.

Lemma dot_unit_l (i n : nat) (w : vector) :
  length w = n -> dot (unit i n) w = nth i w false.
Proof.
  revert i w; induction n as [|n IH]; intros i [|b w] H; simpl in *;
    try discriminate.
  - now destruct i.
  - destruct i as [|i]; simpl.
    + now rewrite dot_zero_l, xorb_false_r.
    + apply IH. lia.
Qed.

Lemma dot_vadd_l (u w v : vector) :
  length u = length w ->
  dot (vadd u w) v = xorb (dot u v) (dot w v).
Proof.
  revert w v; induction u as [|a u IH]; intros [|b w] [|c v] H; simpl in *;
    try discriminate; auto.
  rewrite IH by lia. destruct a, b, c; simpl;
    destruct (dot u v), (dot w v); reflexivity.
Qed.

Lemma dot_vecmat (c : nat) (u v : vector) (B : list vector) :
  rect c B ->
  dot (vecmat c u B) v = dot u (matvec B v).
Proof.
  revert B; induction u as [|a u IH]; intros [|r B] HB; simpl;
    try apply dot_zero_l.
  apply rect_cons in HB as [Hr HB].
  rewrite dot_vadd_l.
  - rewrite IH by assumption. f_equal.
    destruct a; auto using dot_zero_l.
  - rewrite vecmat_length by assumption.
    destruct a; auto using vzero_length.
Qed.

Lemma nth_vzero (j c : nat) : nth j (vzero c) false = false.
Proof.
  unfold vzero. revert j; induction c as [|c IH]; intros [|j]; simpl; auto.
Qed.

Lemma nth_vadd (j : nat) (u v : vector) :
  length u = length v ->
  nth j (vadd u v) false = xorb (nth j u false) (nth j v false).
Proof.
  revert j v; induction u as [|a u IH]; intros [|j] [|b v] H; simpl in *;
    try discriminate; auto.
Qed.

(** Entry [j] of [v * B] is the dot product of [v] and column [j] of [B]. *)
Lemma vecmat_entry (c j : nat) (v : vector) (B : list vector) :
  rect c B ->
  nth j (vecmat c v B) false = dot v (map (fun r => nth j r false) B).
Proof.
  revert B; induction v as [|b v IH]; intros [|r B] HB; simpl;
    try apply nth_vzero.
  apply rect_cons in HB as [Hr HB].
  rewrite nth_vadd.
  - rewrite IH by assumption. f_equal.
    destruct b; simpl; auto using nth_vzero.
  - rewrite vecmat_length by assumption.
    destruct b; auto using vzero_length.
Qed.

Lemma spans_zero (n : nat) (R : list vector) :
  rect n R -> spans n R (vzero n).
Proof.
  intros HR. exists (vzero (length R)). split.
  - apply vzero_length.
  - now apply vecmat_zero_l.
Qed.

Lemma spans_vadd (n : nat) (R : list vector) (u w : vector) :
  rect n R -> spans n R u -> spans n R w -> spans n R (vadd u w).
Proof.
  intros HR [s [Hs Hu]] [t [Ht Hw]]. exists (vadd s t). split.
  - rewrite vadd_length; congruence.
  - rewrite vecmat_vadd_l by (auto; congruence). congruence.
Qed.

Lemma spans_in (n : nat) (R : list vector) (r : vector) :
  rect n R -> In r R -> spans n R r.
Proof.
  induction R as [|r0 R IH]; intros HR Hin; [destruct Hin|].
  apply rect_cons in HR as [Hr0 HR]. destruct Hin as [->|Hin].
  - exists (true :: vzero (length R)). split.
    + simpl. now rewrite vzero_length.
    + simpl. rewrite vecmat_zero_l by assumption.
      rewrite <- Hr0. apply vadd_zero_r.
  - destruct (IH HR Hin) as [s [Hs Hv]]. exists (false :: s). split.
    + simpl. now rewrite Hs.
    + now rewrite vecmat_cons_false_l.
Qed.

Lemma spans_trans (n : nat) (R R' : list vector) (v : vector) :
  rect n R' ->
  (forall r, In r R -> spans n R' r) ->
  spans n R v -> spans n R' v.
Proof.
  intros HR' Hall [s [Hs Hv]]. subst v.
  revert s Hs Hall; induction R as [|r R IH]; intros [|b s] Hs Hall;
    simpl in *; try discriminate; try now apply spans_zero.
  apply spans_vadd; auto.
  destruct b; auto using spans_zero.
Qed.

(** Combinations of rows orthogonal to [w] are orthogonal to [w]. *)
Lemma spans_dot (n : nat) (R : list vector) (u w : vector) :
  rect n R ->
  (forall r, In r R -> dot r w = false) ->
  spans n R u -> dot u w = false.
Proof.
  intros HR Hall [s [_ Hu]]. subst u.
  rewrite dot_vecmat by assumption.
  revert s; induction R as [|r R IH]; intros [|b s]; simpl; auto.
  apply rect_cons in HR as [_ HR].
  rewrite Hall by now left. rewrite andb_false_r. simpl.
  apply IH; auto. intros r' Hr'. apply Hall. now right.
Qed.

Lemma identity_rows_nth (n i : nat) :
  i < n -> nth_error (identity_rows n) i = Some (unit i n).
Proof.
  revert i; induction n as [|n IH]; intros i Hi; [lia|].
  destruct i as [|i]; simpl; auto.
  rewrite nth_error_map, IH by lia. reflexivity.
Qed.

Lemma identity_rows_in (n : nat) (u : vector) :
  In u (identity_rows n) -> exists i, i < n /\ u = unit i n.
Proof.
  intros Hin. apply In_nth_error in Hin as [i Hi].
  assert (Hlt : i < n).
  { rewrite <- (identity_rows_length n). apply nth_error_Some. congruence. }
  exists i. split; auto. rewrite identity_rows_nth in Hi by assumption.
  congruence.
Qed.

(** A family of combinations is a matrix product. *)
Lemma spans_matrix (n : nat) (R l : list vector) :
  (forall u, In u l -> spans n R u) ->
  exists S, length S = length l /\ rect (length R) S /\ mmul n S R = l.
Proof.
  induction l as [|u l IH]; intros Hall.
  - exists []. repeat split. constructor.
  - destruct IH as [S [HSl [HSr HS]]].
    { intros u' Hu'. apply Hall. now right. }
    destruct (Hall u (or_introl eq_refl)) as [s [Hs Hu]].
    exists (s :: S). repeat split.
    + simpl. now rewrite HSl.
    + now constructor.
    + simpl. now rewrite Hu, HS.
Qed.

Lemma mmul_spans (n : nat) (P M l : list vector) (u : vector) :
  rect (length M) P -> mmul n P M = l -> In u l -> spans n M u.
Proof.
  intros HP HPM Hin. subst l. apply in_map_iff in Hin as [p [Hp Hin]].
  exists p. split; auto. eapply Forall_forall in HP; eauto.
Qed.

End SpanFacts.

(** * Gauss-Jordan elimination computes the inverse *)

Section GaussJordan.

Import GF2.

Variable n : nat.
Variable M : list vector.
Hypothesis M_length : length M = n.
Hypothesis M_rect : rect n M.

Lemma find_pivot_some (todo rest : list aug_row) (p : aug_row) :
  find_pivot todo = Some (p, rest) ->
  hd false (fst p) = true /\
  length todo = S (length rest) /\
  (forall x, In x todo <-> x = p \/ In x rest).
Proof.
  revert p rest; induction todo as [|y todo IH]; intros p rest H;
    simpl in H; [discriminate|].
  destruct (hd false (fst y)) eqn:Hy.
  - inversion H; subst. repeat split; auto; simpl; intuition.
  - destruct (find_pivot todo) as [[p0 rest0]|]; [|discriminate].
    inversion H; subst. destruct (IH p rest0 eq_refl) as (Hp & Hl & Hin).
    repeat split; auto.
    + simpl. now rewrite Hl.
    + simpl. rewrite Hin. intuition.
    + simpl. rewrite Hin. intuition.
Qed.

Lemma find_pivot_none (todo : list aug_row) :
  find_pivot todo = None ->
  forall x, In x todo -> hd false (fst x) = false.
Proof.
  induction todo as [|y todo IH]; intros H x Hin; [destruct Hin|].
  simpl in H. destruct (hd false (fst y)) eqn:Hy; [discriminate|].
  destruct (find_pivot todo) as [[p0 rest0]|]; [discriminate|].
  destruct Hin as [->|Hin]; auto.
Qed.

(** What [eliminate] does to one row. *)
Lemma eliminate_spec (c k : nat) (pre tp rp : vector) (x : aug_row) :
  length pre = c ->
  length (fst x) = S k -> length (snd x) = n ->
  length tp = k -> length rp = n ->
  vecmat n (snd x) M = pre ++ fst x ->
  vecmat n rp M = vzero c ++ true :: tp ->
  length (fst (eliminate (tp, rp) x)) = k /\
  length (snd (eliminate (tp, rp) x)) = n /\
  vecmat n (snd (eliminate (tp, rp) x)) M =
    (pre ++ [false]) ++ fst (eliminate (tp, rp) x) /\
  (snd x = snd (eliminate (tp, rp) x) \/
   snd x = vadd (snd (eliminate (tp, rp) x)) rp).
Proof.
  intros Hpre Hfx Hsx Htp Hrp Hx Hp.
  destruct x as [[|b t] r]; simpl in *; [discriminate|].
  unfold eliminate; simpl. destruct b; simpl.
  - repeat split.
    + rewrite vadd_length; lia.
    + rewrite vadd_length; lia.
    + rewrite vecmat_vadd_l by (auto; lia).
      rewrite Hx, Hp, vadd_app by (rewrite vzero_length; lia).
      simpl. rewrite <- app_assoc. simpl. f_equal.
      rewrite <- Hpre. apply vadd_zero_r.
    + right. rewrite vadd_cancel_r; auto; lia.
  - repeat split; auto; try lia.
    rewrite Hx, <- app_assoc. reflexivity.
Qed.

Lemma gj_inv_step (c k : nat) (done todo rest : list aug_row) (p : aug_row) :
  gj_inv n M c (S k) done todo ->
  find_pivot todo = Some (p, rest) ->
  let p' := (tl (fst p), snd p) in
  gj_inv n M (S c) k (map (eliminate p') done ++ [p'])
                     (map (eliminate p') rest).
Proof.
  intros (Hck & Hdone & Htodo & Hlen & Hd & Ht & Hsp) Hfind p'.
  destruct (find_pivot_some _ _ _ Hfind) as (Hhd & Hrest & Hin).
  assert (Hp_in : In p todo) by (apply Hin; now left).
  destruct (Hlen p) as [Hpf Hps]; [apply in_or_app; now right|].
  destruct p as [[|bp tp] rp]; simpl in Hpf, Hps, Hhd; [discriminate|].
  subst bp. simpl in p'.
  assert (Htp : length tp = k) by lia.
  assert (Hp : vecmat n rp M = vzero c ++ true :: tp)
    by (apply (Ht _ Hp_in)).
  (* every row of the old state, eliminated *)
  assert (Hel : forall x pre, In x (done ++ rest) -> length pre = c ->
            vecmat n (snd x) M = pre ++ fst x ->
            length (fst (eliminate p' x)) = k /\
            length (snd (eliminate p' x)) = n /\
            vecmat n (snd (eliminate p' x)) M =
              (pre ++ [false]) ++ fst (eliminate p' x) /\
            (snd x = snd (eliminate p' x) \/
             snd x = vadd (snd (eliminate p' x)) rp)).
  { intros x pre Hx Hpre Hleft.
    assert (Hx' : In x (done ++ todo)).
    { apply in_app_or in Hx as [Hx|Hx]; apply in_or_app; auto.
      right. apply Hin. now right. }
    destruct (Hlen x Hx') as [Hxf Hxs].
    now apply (eliminate_spec c k pre tp rp x). }
  assert (Hlen' : forall x,
            In x ((map (eliminate p') done ++ [p']) ++ map (eliminate p') rest) ->
            length (fst x) = k /\ length (snd x) = n).
  { intros x Hx. rewrite <- app_assoc in Hx.
    apply in_app_or in Hx as [Hx|Hx]; [|apply in_app_or in Hx as [Hx|Hx]].
    - apply in_map_iff in Hx as [y [<- Hy]].
      destruct (In_nth_error done y Hy) as [i Hi].
      destruct (Hel y (unit i c)) as (H1 & H2 & _);
        auto using in_or_app, unit_length.
    - destruct Hx as [<-|[]]. auto.
    - apply in_map_iff in Hx as [y [<- Hy]].
      destruct (Hel y (vzero c)) as (H1 & H2 & _);
        auto using in_or_app, vzero_length. apply Ht, Hin. now right. }
  repeat split.
  - lia.
  - rewrite length_app, length_map. simpl. lia.
  - rewrite length_map. lia.
  - apply Hlen'; assumption.
  - apply Hlen'; assumption.
  - intros i x Hi. rewrite unit_snoc.
    destruct (Nat.lt_ge_cases i c) as [Hlt|Hge].
    + rewrite nth_error_app1 in Hi by (rewrite length_map; lia).
      rewrite nth_error_map in Hi.
      destruct (nth_error done i) as [y|] eqn:Hy; [|discriminate].
      inversion Hi; subst x.
      destruct (Hel y (unit i c)) as (_ & _ & H3 & _);
        eauto using in_or_app, nth_error_In, unit_length.
      rewrite H3. replace (i =? c) with false; auto.
      symmetry. apply Nat.eqb_neq. lia.
    + rewrite nth_error_app2 in Hi by (rewrite length_map; lia).
      rewrite length_map in Hi.
      destruct (i - length done) as [|j] eqn:Hj; simpl in Hi.
      * inversion Hi; subst x. simpl.
        assert (i = c) by lia. subst i.
        rewrite Nat.eqb_refl, unit_ge by lia.
        rewrite Hp, <- app_assoc. reflexivity.
      * destruct j; discriminate.
  - intros x Hx. apply in_map_iff in Hx as [y [<- Hy]].
    destruct (Hel y (vzero c)) as (_ & _ & H3 & _);
      auto using in_or_app, vzero_length.
    + apply Ht, Hin. now right.
    + rewrite H3, vzero_snoc. reflexivity.
  - intros i Hi.
    assert (Hrect : rect n (map snd ((map (eliminate p') done ++ [p'])
                                       ++ map (eliminate p') rest))).
    { apply Forall_map, Forall_forall. intros x Hx. now apply Hlen'. }
    assert (Hrp : spans n (map snd ((map (eliminate p') done ++ [p'])
                                      ++ map (eliminate p') rest)) rp).
    { apply spans_in; auto. apply in_map_iff. exists p'. split; auto.
      apply in_or_app. left. apply in_or_app. right. now left. }
    apply spans_trans with (R := map snd (done ++ todo)); auto.
    intros r Hr. apply in_map_iff in Hr as [x [<- Hx]].
    assert (Hcases : x = (true :: tp, rp) \/ In x (done ++ rest)).
    { apply in_app_or in Hx as [Hx|Hx].
      - right. apply in_or_app. now left.
      - apply Hin in Hx as [->|Hx]; auto. right. apply in_or_app. now right. }
    destruct Hcases as [->|Hx']; [exact Hrp|].
    assert (Hx'in : In (snd (eliminate p' x))
              (map snd ((map (eliminate p') done ++ [p'])
                          ++ map (eliminate p') rest))).
    { apply in_map. rewrite <- app_assoc.
      apply in_app_or in Hx' as [Hx'|Hx']; apply in_or_app.
      - left. now apply in_map.
      - right. apply in_or_app. right. now apply in_map. }
    assert (Hpre : exists pre, length pre = c /\
                     vecmat n (snd x) M = pre ++ fst x).
    { apply in_app_or in Hx' as [Hx'|Hx'].
      - destruct (In_nth_error done x Hx') as [j Hj].
        exists (unit j c). split; auto using unit_length.
      - exists (vzero c). split; auto using vzero_length.
        apply Ht, Hin. now right. }
    destruct Hpre as [pre [Hpre Hleft]].
    destruct (Hel x pre Hx' Hpre Hleft) as (_ & _ & _ & [Heq|Heq]).
    + rewrite Heq. now apply spans_in.
    + rewrite Heq. apply spans_vadd; auto. now apply spans_in.
Qed.

Lemma nth_map_some (A B : Type) (f : A -> B) (l : list A) (i : nat)
    (x : A) (d : B) :
  nth_error l i = Some x -> nth i (map f l) d = f x.
Proof.
  revert i; induction l as [|y l IH]; intros [|i] H; simpl in *;
    try discriminate; auto.
  now inversion H.
Qed.

Lemma combine_map_self (f : vector -> vector) (l : list vector) :
  combine (map f l) l = map (fun r => (f r, r)) l.
Proof. induction l as [|r l IH]; simpl; congruence. Qed.

Lemma gj_inv_init : gj_inv n M 0 n [] (combine M (identity_rows n)).
Proof.
  assert (HM : M = map (fun r => vecmat n r M) (identity_rows n)).
  { symmetry. now apply mmul_identity_l. }
  assert (Hc : combine M (identity_rows n) =
               map (fun r => (vecmat n r M, r)) (identity_rows n)).
  { rewrite HM at 1. apply combine_map_self. }
  repeat split; auto.
  - rewrite length_combine, identity_rows_length. lia.
  - simpl in H. rewrite Hc in H. apply in_map_iff in H as [r [<- Hr]].
    simpl. now apply vecmat_length.
  - simpl in H. rewrite Hc in H. apply in_map_iff in H as [r [<- Hr]].
    simpl. pose proof (rect_identity n) as HI.
    eapply Forall_forall in HI; eauto.
  - intros i x Hi. destruct i; discriminate.
  - intros x Hx. rewrite Hc in Hx. apply in_map_iff in Hx as [r [<- Hr]].
    reflexivity.
  - intros i Hi. simpl app. rewrite Hc, map_map. simpl. rewrite map_id.
    apply spans_in; [apply rect_identity|].
    eapply nth_error_In. now apply identity_rows_nth.
Qed.

(** When the elimination ends, the right half [N] satisfies [N * M = I]
    and is itself left-invertible. *)
Lemma gauss_jordan_some (c k : nat) (done todo res : list aug_row) :
  gj_inv n M c k done todo ->
  gauss_jordan k done todo = Some res ->
  length (map snd res) = n /\ rect n (map snd res) /\
  mmul n (map snd res) M = identity_rows n /\
  (forall i, i < n -> spans n (map snd res) (unit i n)).
Proof.
  revert c done todo; induction k as [|k IH]; intros c done todo Hinv Hrun.
  - simpl in Hrun. inversion Hrun; subst res; clear Hrun.
    destruct Hinv as (Hck & Hdone & Htodo & Hlen & Hd & Ht & Hsp).
    assert (Hcn : c = n) by lia. rewrite Hcn in Hdone, Hd. clear Hcn Hck.
    destruct todo; [|discriminate]. rewrite app_nil_r in *.
    assert (Hrect : rect n (map snd done)).
    { apply Forall_map, Forall_forall. intros x Hx. now apply Hlen. }
    repeat split; auto.
    + now rewrite length_map.
    + apply nth_error_ext. intros i. unfold mmul.
      rewrite map_map, nth_error_map.
      destruct (nth_error done i) as [x|] eqn:Hx; simpl.
      * assert (Hi : i < n).
        { rewrite <- Hdone. apply nth_error_Some. congruence. }
        rewrite identity_rows_nth by assumption. f_equal.
        rewrite (Hd i x Hx).
        destruct (Hlen x) as [Hf _]; [eapply nth_error_In; eauto|].
        destruct (fst x); [apply app_nil_r|discriminate].
      * symmetry. apply nth_error_None. rewrite identity_rows_length.
        rewrite <- Hdone. now apply nth_error_None.
  - simpl in Hrun.
    destruct (find_pivot todo) as [[p rest]|] eqn:Hfind; [|discriminate].
    eapply IH; [|exact Hrun]. eapply gj_inv_step; eauto.
Qed.

(** The elimination cannot fail on a left-invertible matrix. *)
Lemma gauss_jordan_none (c k : nat) (done todo : list aug_row) :
  gj_inv n M c k done todo ->
  (forall i, i < n -> spans n M (unit i n)) ->
  gauss_jordan k done todo <> None.
Proof.
  revert c done todo; induction k as [|k IH]; intros c done todo Hinv HM;
    simpl; [discriminate|].
  destruct (find_pivot todo) as [[p rest]|] eqn:Hfind.
  - eapply IH; eauto. eapply gj_inv_step; eauto.
  - exfalso. destruct Hinv as (Hck & Hdone & Htodo & Hlen & Hd & Ht & Hsp).
    pose proof (find_pivot_none _ Hfind) as Hnone.
    set (heads := map (fun x : aug_row => hd false (fst x)) done).
    set (v := heads ++ true :: vzero k).
    assert (Hheads : length heads = c) by (unfold heads; now rewrite length_map).
    assert (HA : forall x, In x (done ++ todo) ->
                   dot (snd x) (matvec M v) = false).
    { intros x Hx. rewrite <- dot_vecmat with (c := n) by assumption.
      destruct (Hlen x Hx) as [Hf Hs].
      apply in_app_or in Hx as [Hx|Hx].
      - destruct (In_nth_error done x Hx) as [i Hi].
        rewrite (Hd i x Hi). unfold v.
        rewrite dot_app by (rewrite unit_length; lia).
        rewrite dot_unit_l by assumption.
        unfold heads. rewrite (nth_map_some _ _ _ done i x false Hi).
        destruct (fst x) as [|h t]; [discriminate|]. simpl.
        rewrite dot_zero_r. now destruct h.
      - rewrite (Ht x Hx). unfold v.
        rewrite dot_app by (rewrite vzero_length; lia).
        rewrite dot_zero_l. specialize (Hnone x Hx).
        destruct (fst x) as [|h t]; [discriminate|]. simpl in *. subst h.
        simpl. apply dot_zero_r. }
    assert (Hw : forall i, i < n -> nth i (matvec M v) false = false).
    { intros i Hi. rewrite <- dot_unit_l with (n := n).
      - apply spans_dot with (n := n) (R := map snd (done ++ todo)); auto.
        + apply Forall_map, Forall_forall. intros x Hx. now apply Hlen.
        + intros r Hr. apply in_map_iff in Hr as [x [<- Hx]]. auto.
      - unfold matvec. now rewrite length_map. }
    assert (HMv : forall m, In m M -> dot m v = false).
    { intros m Hm. destruct (In_nth_error M m Hm) as [i Hi].
      assert (Hlt : i < n).
      { rewrite <- M_length. apply nth_error_Some. congruence. }
      specialize (Hw i Hlt). unfold matvec in Hw.
      now rewrite (nth_map_some _ _ _ M i m false Hi) in Hw. }
    assert (Hc : dot (unit c n) v = false).
    { apply spans_dot with (n := n) (R := M); auto. apply HM. lia. }
    rewrite dot_unit_l in Hc.
    + unfold v in Hc. rewrite app_nth2 in Hc by lia.
      replace (c - length heads) with 0 in Hc by lia. discriminate.
    + unfold v. rewrite length_app. simpl. rewrite vzero_length. lia.
Qed.

End GaussJordan.

(** * The inverse of a matrix *)

Section InverseFacts.

Import GF2.

Variable n : nat.

Lemma inverse_rows_sound (M N : list vector) :
  length M = n -> rect n M ->
  inverse_rows n M = Some N ->
  length N = n /\ rect n N /\
  mmul n N M = identity_rows n /\ mmul n M N = identity_rows n.
Proof.
  intros Hl Hr Hinv. unfold inverse_rows in Hinv.
  destruct (gauss_jordan n [] (combine M (identity_rows n))) as [res|] eqn:Hgj;
    [|discriminate].
  inversion Hinv; subst N; clear Hinv.
  destruct (gauss_jordan_some n M Hl Hr 0 n [] _ res (gj_inv_init n M Hl Hr) Hgj)
    as (HNl & HNr & HNM & Hsp).
  repeat split; auto.
  destruct (spans_matrix n (map snd res) (identity_rows n))
    as [S [HSl [HSr HS]]].
  { intros u Hu. apply identity_rows_in in Hu as [i [Hi ->]]. auto. }
  rewrite HNl in HSr.
  assert (HSM : S = M).
  { rewrite <- (mmul_identity_r n S HSr), <- HNM.
    rewrite <- (mmul_assoc n n) by auto. rewrite HS.
    now apply mmul_identity_l. }
  now rewrite <- HSM.
Qed.

Lemma inverse_rows_complete (M P : list vector) :
  length M = n -> rect n M ->
  rect n P -> mmul n P M = identity_rows n ->
  exists N, inverse_rows n M = Some N.
Proof.
  intros Hl Hr HP HPM. unfold inverse_rows.
  destruct (gauss_jordan n [] (combine M (identity_rows n))) as [res|] eqn:Hgj.
  - eexists. reflexivity.
  - exfalso.
    apply (gauss_jordan_none n M Hl Hr 0 n [] _ (gj_inv_init n M Hl Hr));
      auto.
    intros i Hi. apply (mmul_spans n P M (identity_rows n)); auto.
    + now rewrite Hl.
    + eapply nth_error_In. now apply identity_rows_nth.
Qed.

Lemma inverse_rows_unique (M P N : list vector) :
  length M = n -> rect n M -> rect n P -> length N = n -> rect n N ->
  mmul n P M = identity_rows n -> mmul n M N = identity_rows n ->
  P = N.
Proof.
  intros HMl HMr HP HNl HNr HPM HMN.
  rewrite <- (mmul_identity_r n P HP), <- HMN.
  rewrite <- (mmul_assoc n n) by auto. rewrite HPM.
  now apply mmul_identity_l.
Qed.

Lemma inverse_rows_involutive (M N : list vector) :
  length M = n -> rect n M ->
  inverse_rows n M = Some N -> inverse_rows n N = Some M.
Proof.
  intros Hl Hr Hinv.
  destruct (inverse_rows_sound M N Hl Hr Hinv) as (HNl & HNr & HNM & HMN).
  destruct (inverse_rows_complete N M HNl HNr Hr HMN) as [N' HN'].
  destruct (inverse_rows_sound N N' HNl HNr HN') as (HN'l & HN'r & HN'N & HNN').
  rewrite HN'. f_equal.
  symmetry. now apply (inverse_rows_unique N M N').
Qed.

End InverseFacts.

(** * Multiplicative order *)

Section Enumeration.

Context {A : Type}.

Lemma length_flat_map_const (B : Type) (f : A -> list B) (xs : list A)
    (k : nat) :
  (forall x, length (f x) = k) -> length (flat_map f xs) = length xs * k.
Proof.
  intros H. induction xs as [|x xs IH]; simpl; auto.
  now rewrite length_app, H, IH.
Qed.

Lemma all_lists_length (xs : list A) (n : nat) :
  length (all_lists xs n) = length xs ^ n.
Proof.
  induction n as [|n IH]; simpl; auto.
  rewrite length_flat_map_const with (k := length xs ^ n); auto.
  intros x. now rewrite length_map.
Qed.

Lemma all_lists_in (xs : list A) (n : nat) (l : list A) :
  length l = n -> Forall (fun x => In x xs) l -> In l (all_lists xs n).
Proof.
  revert l; induction n as [|n IH]; intros [|x l] Hl Hall; simpl in *;
    try discriminate; auto.
  inversion Hall; subst. apply in_flat_map. exists x. split; auto.
  apply in_map, IH; auto.
Qed.

End Enumeration.

Section OrderFacts.

Import GF2.

Variable n : nat.
Variable A : list vector.
Hypothesis A_length : length A = n.
Hypothesis A_rect : rect n A.

Lemma rows_eqb_eq (X Y : list vector) : rows_eqb X Y = true <-> X = Y.
Proof.
  unfold rows_eqb. destruct (list_eq_dec (list_eq_dec bool_dec) X Y);
    split; auto; discriminate.
Qed.

Lemma mpow_shape (k : nat) : length (mpow n A k) = n /\ rect n (mpow n A k).
Proof.
  destruct k as [|k]; simpl.
  - split; [apply identity_rows_length | apply rect_identity].
  - split; [|now apply rect_mmul].
    rewrite mmul_length.
    induction k as [|k IH]; simpl.
    + apply identity_rows_length.
    + now rewrite mmul_length.
Qed.

Lemma mpow_1 : mpow n A 1 = A.
Proof. simpl. now apply mmul_identity_l. Qed.

Lemma mpow_add (a b : nat) :
  mpow n A (a + b) = mmul n (mpow n A a) (mpow n A b).
Proof.
  induction b as [|b IH].
  - rewrite Nat.add_0_r. simpl. symmetry.
    apply mmul_identity_r, mpow_shape.
  - rewrite Nat.add_succ_r. simpl. rewrite IH.
    apply mmul_assoc; auto. apply mpow_shape.
Qed.

(** The search visits the exponents in order and stops at the first power
    equal to the identity. *)
Lemma order_search_spec (d k : nat) :
  match order_search n A d (k, mpow n A k) with
  | inr r =>
      k <= r < k + 2 ^ d /\ mpow n A r = identity_rows n /\
      (forall j, k <= j < r -> mpow n A j <> identity_rows n)
  | inl (k', P) =>
      k' = k + 2 ^ d /\ P = mpow n A k' /\
      (forall j, k <= j < k' -> mpow n A j <> identity_rows n)
  end.
Proof.
  revert k; induction d as [|d IH]; intros k.
  - simpl. destruct (rows_eqb (mpow n A k) (identity_rows n)) eqn:He.
    + apply rows_eqb_eq in He. repeat split; auto; lia.
    + repeat split; try lia.
      intros j Hj. replace j with k by lia.
      intros Hc. apply rows_eqb_eq in Hc. congruence.
  - simpl. specialize (IH k) as IH1.
    destruct (order_search n A d (k, mpow n A k)) as [[k1 P1]|r1].
    + destruct IH1 as (-> & -> & Hno1).
      specialize (IH (k + 2 ^ d)) as IH2.
      destruct (order_search n A d (k + 2 ^ d, mpow n A (k + 2 ^ d)))
        as [[k2 P2]|r2].
      * destruct IH2 as (-> & -> & Hno2). repeat split; try lia.
        intros j Hj. destruct (Nat.lt_ge_cases j (k + 2 ^ d)).
        -- apply Hno1. lia.
        -- apply Hno2. lia.
      * destruct IH2 as (Hr & He & Hno2). repeat split; auto; try lia.
        intros j Hj. destruct (Nat.lt_ge_cases j (k + 2 ^ d)).
        -- apply Hno1. lia.
        -- apply Hno2. lia.
    + destruct IH1 as (Hr & He & Hno1). repeat split; auto; lia.
Qed.

(** Left-invertible matrices can be cancelled on the left, and are closed
    under product. *)
Lemma left_cancel (X B C : list vector) :
  length X = n -> rect n X -> left_invertible n X ->
  length B = n -> rect n B -> length C = n -> rect n C ->
  mmul n X B = mmul n X C -> B = C.
Proof.
  intros HXl HXr [Y [HY HYX]] HBl HBr HCl HCr Heq.
  rewrite <- (mmul_identity_l n n B), <- (mmul_identity_l n n C) by auto.
  rewrite <- HYX, !(mmul_assoc n n) by auto. now rewrite Heq.
Qed.

Lemma left_invertible_mpow (k : nat) :
  left_invertible n A -> left_invertible n (mpow n A k).
Proof.
  intros [Y [HY HYA]]. induction k as [|k [Yk [HYk Hk]]].
  - exists (identity_rows n). split; [apply rect_identity|].
    simpl. apply mmul_identity_r, rect_identity.
  - exists (mmul n Y Yk). split; [now apply rect_mmul|].
    replace (S k) with (k + 1) by lia. rewrite mpow_add, mpow_1.
    destruct (mpow_shape k) as [Hl Hr].
    rewrite (mmul_assoc n n Y Yk (mmul n (mpow n A k) A));
      [|assumption|now rewrite mmul_length|now apply rect_mmul].
    rewrite <- (mmul_assoc n n Yk (mpow n A k) A) by auto.
    rewrite Hk, (mmul_identity_l n n) by auto. exact HYA.
Qed.

Lemma all_matrices_in (X : list vector) :
  length X = n -> rect n X -> In X (all_matrices n).
Proof.
  intros Hl Hr. apply all_lists_in; auto.
  eapply Forall_impl; [|exact Hr].
  intros r Hlen. apply all_lists_in; auto.
  apply Forall_forall. intros [|] _; simpl; auto.
Qed.

Lemma all_matrices_length : length (all_matrices n) = 2 ^ (n * n).
Proof.
  unfold all_matrices. rewrite !all_lists_length. simpl.
  now rewrite Nat.pow_mul_r.
Qed.

Lemma NoDup_map_seq (B : Type) (f : nat -> B) (start len : nat) :
  (forall i j, start <= i < j -> j < start + len -> f i <> f j) ->
  NoDup (map f (seq start len)).
Proof.
  revert start; induction len as [|len IH]; intros start H; simpl;
    constructor.
  - intros Hin. apply in_map_iff in Hin as [j [Hj Hin]].
    apply in_seq in Hin. apply (H start j); auto; lia.
  - apply IH. intros i j Hij Hj. apply H; lia.
Qed.

(** Some power of a left-invertible matrix, of exponent between 1 and
    [2 ^ (n * n)], is the identity. *)
Lemma mpow_identity_exists :
  left_invertible n A ->
  ~ (forall j, 1 <= j < 1 + 2 ^ (n * n) -> mpow n A j <> identity_rows n).
Proof.
  intros Hinv Hno.
  assert (Hnd : NoDup (map (mpow n A) (seq 0 (S (2 ^ (n * n)))))).
  { apply NoDup_map_seq. intros i j Hij Hj Heq.
    apply (Hno (j - i)); [lia|].
    destruct (mpow_shape i) as [Hil Hir].
    destruct (mpow_shape (j - i)) as [Hdl Hdr].
    apply (left_cancel (mpow n A i)); auto.
    - now apply left_invertible_mpow.
    - apply identity_rows_length.
    - apply rect_identity.
    - rewrite <- mpow_add, (mmul_identity_r n) by auto.
      replace (i + (j - i)) with j by lia. now symmetry. }
  apply NoDup_incl_length with (l' := all_matrices n) in Hnd.
  - rewrite length_map, length_seq, all_matrices_length in Hnd. lia.
  - intros X HX. apply in_map_iff in HX as [k [<- _]].
    apply all_matrices_in; apply mpow_shape.
Qed.

Lemma order_search_found :
  left_invertible n A ->
  exists k, order_search n A (n * n) (1, A) = inr k /\
    1 <= k /\ mpow n A k = identity_rows n /\
    (forall j, 1 <= j < k -> mpow n A j <> identity_rows n).
Proof.
  intros Hinv. pose proof (order_search_spec (n * n) 1) as Hspec.
  rewrite mpow_1 in Hspec.
  destruct (order_search n A (n * n) (1, A)) as [[k' P]|k].
  - destruct Hspec as (-> & _ & Hno).
    exfalso. now apply (mpow_identity_exists Hinv).
  - destruct Hspec as (Hk & He & Hno). exists k. repeat split; auto; lia.
Qed.

End OrderFacts.

(** * The class: construction and normal forms *)

Section CpmFacts.

Import GF2 Cypm.

Lemma wfb_wf (M : matrix) : wfb M = true <-> wf M.
Proof.
  unfold wfb, wf. rewrite andb_true_iff, Nat.eqb_eq, forallb_forall, Forall_forall.
  split; intros [H1 H2]; split; auto; intros r Hr.
  - now apply Nat.eqb_eq, H2.
  - now apply Nat.eqb_eq, H2.
Qed.

Lemma validb_valid (theta : CPM) : validb theta = true <-> valid theta.
Proof.
  unfold validb, valid.
  rewrite !andb_true_iff, !Nat.eqb_eq, Z.leb_le, wfb_wf. tauto.
Qed.

(** A valid CPM is [m >= 1] and an [n * n] matrix. *)
Lemma valid_inv (theta : CPM) :
  valid theta ->
  exists Zr,
    theta = mkCPM (_nrows theta) (_ncols theta)
              (mkMatrix (_ncols theta) (_ncols theta) Zr) /\
    (1 <= _nrows theta)%Z /\ length Zr = _ncols theta /\
    rect (_ncols theta) Zr.
Proof.
  destruct theta as [m n [r c Zr]]. unfold valid, wf. simpl.
  intros (Hm & [Hl Hr] & -> & ->). exists Zr. auto.
Qed.

Lemma valid_mk (m : Z) (n : nat) (Zr : list vector) :
  (1 <= m)%Z -> length Zr = n -> rect n Zr ->
  valid (mkCPM m n (mkMatrix n n Zr)).
Proof. intros. unfold valid, wf. simpl. auto. Qed.

(** The constructor accepts a square matrix over GF(2) when [m >= 1]. *)
Lemma new_square (m : Z) (n : nat) (Zr : list vector) :
  (1 <= m)%Z ->
  new m (ZMatrix (MatGF2 (mkMatrix n n Zr))) =
  Ok (mkCPM m n (mkMatrix n n Zr)).
Proof.
  intros Hm. unfold new, is_square. simpl.
  destruct (m <? 1)%Z eqn:E; [apply Z.ltb_lt in E; lia|].
  now rewrite Nat.eqb_refl.
Qed.

(** Every valid CPM is built by the constructor, and the constructor
    builds only valid CPMs from well-formed matrices. *)
Lemma new_valid (m : Z) (M : matrix) (theta : CPM) :
  wf M -> new m (ZMatrix (MatGF2 M)) = Ok theta -> valid theta.
Proof.
  unfold new, is_square. simpl.
  destruct (m <? 1)%Z eqn:E; [discriminate|]. apply Z.ltb_ge in E.
  destruct (GF2.nrows M =? GF2.ncols M) eqn:Hsq; simpl; [|discriminate].
  apply Nat.eqb_eq in Hsq.
  intros Hwf H; inversion H; subst theta. unfold valid. simpl.
  repeat split; auto; try apply Hwf; lia.
Qed.

Lemma valid_new (theta : CPM) :
  valid theta ->
  new (_nrows theta) (ZMatrix (MatGF2 (_Z theta))) = Ok theta.
Proof.
  intros Hv. destruct (valid_inv theta Hv) as [Zr (Heq & Hm & _)].
  rewrite Heq. simpl. now apply new_square.
Qed.

Lemma compose_even (m : Z) (n : nat) (Zr Zr' : list vector) :
  (1 <= m)%Z -> Z.even m = true ->
  compose (mkCPM m n (mkMatrix n n Zr)) (mkCPM m n (mkMatrix n n Zr')) =
  Ok (mkCPM m n (mkMatrix n n (madd Zr Zr'))).
Proof.
  intros Hm He. unfold compose, nrows, ncols, parity_folding_matrix, add.
  simpl. rewrite Z.eqb_refl, Nat.eqb_refl, He. simpl.
  now apply new_square.
Qed.

Lemma compose_odd (m : Z) (n : nat) (Zr Zr' : list vector) :
  (1 <= m)%Z -> Z.even m = false ->
  compose (mkCPM m n (mkMatrix n n Zr)) (mkCPM m n (mkMatrix n n Zr')) =
  Ok (mkCPM m n (mkMatrix n n
        (madd (mmul n (madd Zr (identity_rows n)) (madd Zr' (identity_rows n)))
              (identity_rows n)))).
Proof.
  intros Hm He.
  unfold compose, nrows, ncols, parity_folding_matrix, add, mul,
    identity_matrix.
  simpl. rewrite Z.eqb_refl, He. repeat (rewrite Nat.eqb_refl; simpl).
  now apply new_square.
Qed.

Lemma eqb_refl (M : matrix) : GF2.eqb M M = true.
Proof.
  unfold GF2.eqb. rewrite !Nat.eqb_refl. simpl.
  unfold rows_eqb. destruct (list_eq_dec _ _ _); congruence.
Qed.

End CpmFacts.

(** * Construction and comparison *)

Section ConstructionClaims.

Import GF2 Cypm.

(** The errors of the constructor, in the order of its checks. *)
Lemma new_invalid_dimension (m : Z) (Zin : Zarg) :
  (m < 1)%Z -> new m Zin = Raise InvalidDimension.
Proof.
  intros Hm. unfold new. apply Z.ltb_lt in Hm. now rewrite Hm.
Qed.

Lemma new_not_square (m : Z) (M : matrix) :
  (1 <= m)%Z -> GF2.nrows M <> GF2.ncols M ->
  new m (ZMatrix (MatGF2 M)) = Raise NotSquare.
Proof.
  intros Hm Hsq. unfold new, is_square. simpl.
  destruct (m <? 1)%Z eqn:E; [apply Z.ltb_lt in E; lia|].
  apply Nat.eqb_neq in Hsq. now rewrite Hsq.
Qed.

Lemma pow_invalid_exponent (theta : CPM) (e : Z) :
  (e < 1)%Z -> pow theta e = Raise InvalidExponent.
Proof.
  intros He. unfold pow. apply Z.ltb_lt in He. now rewrite He.
Qed.

Lemma inverse_not_invertible (theta : CPM) :
  is_invertible theta = Ok false -> inverse theta = Raise NotInvertible.
Proof. intros H. unfold inverse. now rewrite H. Qed.

(** C8, as stated, fails in both directions: a nested array with an entry
    other than 0 and 1 is accepted (the entry is reduced modulo 2), and a
    matrix over the integers whose entries are all 0 or 1 is refused. *)
Lemma new_invalid_field_counterexample :
  entries_binary (ZList [[2%Z]]) = false /\
  new 1 (ZList [[2%Z]]) = Ok (mkCPM 1 1 (mkMatrix 1 1 [[false]])) /\
  entries_binary (ZMatrix (MatZZ 1 1 [[1%Z]])) = true /\
  new 1 (ZMatrix (MatZZ 1 1 [[1%Z]])) = Raise InvalidField /\
  ~ (forall m Zin,
       new m Zin = Raise InvalidField <-> entries_binary Zin = false).
Proof.
  repeat split; try reflexivity.
  intros H. destruct (H 1%Z (ZList [[2%Z]])) as [_ H2].
  specialize (H2 eq_refl). discriminate H2.
Qed.

(** C8, amended: constructing [CPM(m, Z)] fails with [InvalidField] exactly
    when [m >= 1] and [Z] is supplied as a matrix whose base ring is not
    GF(2); a nested array is converted to GF(2) and never fails with
    [InvalidField], whatever its entries. *)
Theorem new_invalid_field (m : Z) (Zin : Zarg) :
  new m Zin = Raise InvalidField <->
  ((1 <= m)%Z /\ exists r c l, Zin = ZMatrix (MatZZ r c l)).
Proof.
  unfold new, InvalidField. split.
  - destruct (m <? 1)%Z eqn:E; [discriminate|]. apply Z.ltb_ge in E.
    destruct Zin as [l|[M|r c l]]; simpl.
    + unfold Matrix_of_list.
      destruct (forallb _ l); simpl; [|discriminate].
      destruct (negb _); discriminate.
    + destruct (negb _); discriminate.
    + intros _. split; [lia|]. now exists r, c, l.
  - intros [Hm (r & c & l & ->)].
    destruct (m <? 1)%Z eqn:E; [apply Z.ltb_lt in E; lia|]. reflexivity.
Qed.

(** C9, as stated, fails: comparing CPMs of different dimensions returns
    [False]; no error is raised. *)
Lemma is_equal_counterexample :
  let theta := mkCPM 1 1 (mkMatrix 1 1 [[false]]) in
  let theta' := mkCPM 2 2 (mkMatrix 2 2 [[false; false]; [false; false]]) in
  valid theta /\ valid theta' /\
  nrows theta <> nrows theta' /\ ncols theta <> ncols theta' /\
  is_equal theta theta' = Ok false /\ Cypm.eq theta theta' = Ok false /\
  ~ (exists e, is_equal theta theta' = Raise e).
Proof.
  repeat split; try (apply validb_valid; reflexivity); try discriminate;
    try (simpl; lia); try apply Z.le_refl; repeat constructor.
  intros [e He]. discriminate He.
Qed.

(** C9, amended: comparing two CPMs of different [(m, n)] with [is_equal]
    or [==] returns [False]; [DimensionMismatch] is raised by [compose]
    only. *)
Theorem is_equal_dimension_mismatch (theta theta' : CPM) :
  valid theta -> valid theta' ->
  nrows theta <> nrows theta' \/ ncols theta <> ncols theta' ->
  is_equal theta theta' = Ok false /\
  Cypm.eq theta theta' = Ok false /\
  compose theta theta' = Raise DimensionMismatch.
Proof.
  intros Hv Hv' Hd.
  destruct (valid_inv theta Hv) as [Zr (-> & _)].
  destruct (valid_inv theta' Hv') as [Zr' (-> & _)].
  unfold Cypm.eq, is_equal, compose, nrows, ncols, parity_folding_matrix,
    GF2.eqb in *. simpl in *.
  destruct Hd as [Hd|Hd].
  - apply Z.eqb_neq in Hd. rewrite Hd. auto.
  - apply Nat.eqb_neq in Hd. rewrite Hd. simpl.
    rewrite andb_false_r, orb_true_r. auto.
Qed.

Lemma is_equal_dimension_mismatch_witness :
  is_equal (mkCPM 1 1 (mkMatrix 1 1 [[false]]))
           (mkCPM 2 2 (mkMatrix 2 2 [[false; false]; [false; false]]))
    = Ok false /\
  Cypm.eq (mkCPM 1 1 (mkMatrix 1 1 [[false]]))
          (mkCPM 2 2 (mkMatrix 2 2 [[false; false]; [false; false]]))
    = Ok false /\
  compose (mkCPM 1 1 (mkMatrix 1 1 [[false]]))
          (mkCPM 2 2 (mkMatrix 2 2 [[false; false]; [false; false]]))
    = Raise DimensionMismatch.
Proof.
  apply is_equal_dimension_mismatch.
  - apply validb_valid. reflexivity.
  - apply validb_valid. reflexivity.
  - left. discriminate.
Defined.

(** C10: for even [m], composition is commutative: both compositions are
    the CPM whose folding matrix is the sum of the two folding matrices. *)
Theorem compose_even_commutative (theta theta' : CPM) :
  valid theta -> valid theta' ->
  nrows theta = nrows theta' -> ncols theta = ncols theta' ->
  Z.even (nrows theta) = true ->
  exists alpha alpha' Zsum,
    compose theta theta' = Ok alpha /\
    compose theta' theta = Ok alpha' /\
    add (_Z theta) (_Z theta') = Ok Zsum /\
    _Z alpha = Zsum /\ _Z alpha' = Zsum /\
    is_equal alpha alpha' = Ok true.
Proof.
  intros Hv Hv' Hm Hn He.
  destruct (valid_inv theta Hv) as [Zr (Ht & H1 & _)].
  destruct (valid_inv theta' Hv') as [Zr' (Ht' & _)].
  unfold nrows, ncols in *. rewrite Ht, Ht'. rewrite <- Hm, <- Hn.
  rewrite !compose_even by assumption.
  do 3 eexists. repeat split.
  - unfold add. simpl. now rewrite !Nat.eqb_refl.
  - simpl. now rewrite madd_comm.
  - unfold is_equal, nrows, parity_folding_matrix. simpl.
    now rewrite Z.eqb_refl, (madd_comm Zr' Zr), eqb_refl.
Qed.

Lemma compose_even_commutative_witness :
  exists alpha alpha' Zsum,
    compose (mkCPM 2 2 (mkMatrix 2 2 [[true; false]; [false; false]]))
            (mkCPM 2 2 (mkMatrix 2 2 [[false; true]; [true; true]]))
      = Ok alpha /\
    compose (mkCPM 2 2 (mkMatrix 2 2 [[false; true]; [true; true]]))
            (mkCPM 2 2 (mkMatrix 2 2 [[true; false]; [false; false]]))
      = Ok alpha' /\
    add (mkMatrix 2 2 [[true; false]; [false; false]])
        (mkMatrix 2 2 [[false; true]; [true; true]]) = Ok Zsum /\
    _Z alpha = Zsum /\ _Z alpha' = Zsum /\
    is_equal alpha alpha' = Ok true.
Proof.
  apply (compose_even_commutative
           (mkCPM 2 2 (mkMatrix 2 2 [[true; false]; [false; false]]))
           (mkCPM 2 2 (mkMatrix 2 2 [[false; true]; [true; true]]))).
  - apply validb_valid. reflexivity.
  - apply validb_valid. reflexivity.
  - reflexivity.
  - reflexivity.
  - reflexivity.
Defined.

End ConstructionClaims.

(** * Column-parity utilities *)

Section ColumnClaims.

Import GF2 Cypm.

Lemma fold_left_vadd_length (c : nat) (rs : list vector) (r : vector) :
  rect c rs -> length r = c -> length (fold_left vadd rs r) = c.
Proof.
  revert r; induction rs as [|s rs IH]; intros r Hrs Hr; simpl; auto.
  apply rect_cons in Hrs as [Hs Hrs]. apply IH; auto.
  rewrite vadd_length; congruence.
Qed.

(** A matrix with at least one row has a column parity, a vector with one
    entry per column. *)
Lemma column_parity_vec (A : matrix) :
  wf A -> 1 <= GF2.nrows A ->
  exists p, column_parity A = Vec p /\ length p = GF2.ncols A.
Proof.
  intros [Hl Hr] Hn. unfold column_parity.
  destruct (rows A) as [|r rs]; simpl in *; [lia|].
  apply rect_cons in Hr as [Hr Hrs].
  eexists. split; [reflexivity|]. now apply fold_left_vadd_length.
Qed.

Lemma nonzero_positions_from_filter (k : nat) (v : vector) :
  nonzero_positions_from k v =
  filter (fun j => nth (j - k) v false) (seq k (length v)).
Proof.
  revert k; induction v as [|b v IH]; intros k; simpl; auto.
  rewrite Nat.sub_diag, IH.
  assert (Hext : filter (fun j => nth (j - S k) v false) (seq (S k) (length v))
               = filter (fun j => match j - k with
                                  | 0 => b
                                  | S m => nth m v false
                                  end) (seq (S k) (length v))).
  { apply filter_ext_in. intros j Hj. apply in_seq in Hj.
    replace (j - k) with (S (j - S k)) by lia. reflexivity. }
  rewrite Hext. now destruct b.
Qed.

Lemma nonzero_positions_filter (v : vector) :
  nonzero_positions v = filter (fun j => nth j v false) (seq 0 (length v)).
Proof.
  unfold nonzero_positions. rewrite nonzero_positions_from_filter.
  apply filter_ext. intros j. now rewrite Nat.sub_0_r.
Qed.

Lemma even_columns_loop_filter (A : matrix) (odd es : list nat) :
  odd_columns A = Ok odd ->
  even_columns_loop A es =
  Ok (filter (fun e => negb (existsb (Nat.eqb e) odd)) es).
Proof.
  intros Hodd. induction es as [|e es IH]; simpl; auto.
  rewrite Hodd, IH. simpl. now destruct (existsb (Nat.eqb e) odd).
Qed.

Lemma existsb_eqb_in (e : nat) (l : list nat) :
  existsb (Nat.eqb e) l = true <-> In e l.
Proof.
  rewrite existsb_exists. split.
  - intros [x [Hx He]]. apply Nat.eqb_eq in He. now subst.
  - intros H. exists e. split; auto. apply Nat.eqb_refl.
Qed.

Lemma filter_partition_perm (f : nat -> bool) (l : list nat) :
  Permutation (filter f l ++ filter (fun x => negb (f x)) l) l.
Proof.
  induction l as [|x l IH]; simpl; auto.
  destruct (f x); simpl.
  - now constructor.
  - apply Permutation_sym. etransitivity; [|apply Permutation_middle].
    constructor. now apply Permutation_sym.
Qed.

Lemma seq_sorted (k len : nat) : StronglySorted lt (seq k len).
Proof.
  revert k; induction len as [|len IH]; intros k; simpl; constructor; auto.
  apply Forall_forall. intros j Hj. apply in_seq in Hj. lia.
Qed.

Lemma filter_sorted (f : nat -> bool) (l : list nat) :
  StronglySorted lt l -> StronglySorted lt (filter f l).
Proof.
  induction 1 as [|x l Hs IH Hx]; simpl; [constructor|].
  destruct (f x); auto. constructor; auto.
  apply Forall_forall. intros y Hy. apply filter_In in Hy as [Hy _].
  eapply Forall_forall in Hx; eauto.
Qed.

(** C5: for a matrix [A] with at least one row and [c] columns,
    [odd_columns(A)] and [even_columns(A)] partition [[0, c)]: together
    they are a rearrangement of [0, ..., c - 1], each index is in exactly
    one of them, and both are in ascending order. *)
Theorem odd_even_columns_partition (A : matrix) :
  wf A -> 1 <= GF2.nrows A ->
  exists odd even,
    odd_columns A = Ok odd /\
    even_columns A = Ok even /\
    Permutation (odd ++ even) (seq 0 (GF2.ncols A)) /\
    (forall j, j < GF2.ncols A ->
       (In j odd /\ ~ In j even) \/ (In j even /\ ~ In j odd)) /\
    (forall j, In j odd \/ In j even -> j < GF2.ncols A) /\
    StronglySorted lt odd /\ StronglySorted lt even.
Proof.
  intros Hwf Hn.
  destruct (column_parity_vec A Hwf Hn) as [p [Hp Hlen]].
  set (f := fun j => nth j p false).
  assert (Hodd : odd_columns A = Ok (filter f (seq 0 (GF2.ncols A)))).
  { unfold odd_columns. rewrite Hp, nonzero_positions_filter, Hlen.
    reflexivity. }
  assert (Heven : even_columns A =
                  Ok (filter (fun j => negb (f j)) (seq 0 (GF2.ncols A)))).
  { unfold even_columns. rewrite (even_columns_loop_filter A _ _ Hodd).
    f_equal. apply filter_ext_in. intros e He. f_equal.
    apply eq_true_iff_eq. rewrite existsb_eqb_in, filter_In. tauto. }
  exists (filter f (seq 0 (GF2.ncols A))),
         (filter (fun j => negb (f j)) (seq 0 (GF2.ncols A))).
  repeat split; auto.
  - apply filter_partition_perm.
  - intros j Hj.
    assert (Hin : In j (seq 0 (GF2.ncols A))) by (apply in_seq; lia).
    rewrite !filter_In. destruct (f j); simpl; [left|right];
      split; auto; intros [_ H]; discriminate.
  - intros j [Hj|Hj]; apply filter_In in Hj as [Hj _];
      apply in_seq in Hj; lia.
  - apply filter_sorted, seq_sorted.
  - apply filter_sorted, seq_sorted.
Qed.

Lemma odd_even_columns_partition_witness :
  exists odd even,
    odd_columns A58 = Ok odd /\
    even_columns A58 = Ok even /\
    Permutation (odd ++ even) (seq 0 (GF2.ncols A58)) /\
    (forall j, j < GF2.ncols A58 ->
       (In j odd /\ ~ In j even) \/ (In j even /\ ~ In j odd)) /\
    (forall j, In j odd \/ In j even -> j < GF2.ncols A58) /\
    StronglySorted lt odd /\ StronglySorted lt even.
Proof.
  apply (odd_even_columns_partition A58).
  - apply wfb_wf. reflexivity.
  - simpl. lia.
Defined.

End ColumnClaims.

(** * Evaluation and composition *)

Section EvaluationClaims.

Import GF2 Cypm.

Lemma mmul_repeat (c r : nat) (p : vector) (Zr : list vector) :
  mmul c (repeat p r) Zr = repeat (vecmat c p Zr) r.
Proof. unfold mmul. apply map_repeat. Qed.

Lemma madd_repeat_r (A : list vector) (e : vector) :
  madd A (repeat e (length A)) = map (fun a => vadd a e) A.
Proof. induction A as [|a A IH]; simpl; congruence. Qed.

(** The action of a CPM on a matrix with at least one row. *)
Lemma call_rows (m : Z) (n : nat) (Zr : list vector) (A : matrix)
    (p : vector) :
  wf A -> GF2.ncols A = n -> column_parity A = Vec p ->
  call (mkCPM m n (mkMatrix n n Zr)) A =
  Ok (mkMatrix (GF2.nrows A) n
        (map (fun a => vadd a (vecmat n p Zr)) (rows A))).
Proof.
  intros Hwf Hc Hp.
  assert (Hlen : length p = n).
  { destruct (column_parity_vec A Hwf) as [p' [Hp' Hl]].
    - destruct Hwf as [Hl _]. unfold column_parity in Hp.
      destruct (rows A); [discriminate|]. simpl in Hl. lia.
    - congruence. }
  unfold call, expanded_effect, expanded_column_parity, parity_folding_matrix,
    mul, add.
  rewrite Hp. simpl. rewrite Hlen, Nat.eqb_refl. simpl.
  rewrite Hc, !Nat.eqb_refl. simpl.
  rewrite mmul_repeat. destruct Hwf as [Hl _].
  rewrite <- Hl at 2. now rewrite madd_repeat_r.
Qed.

Lemma call_no_rows (m : Z) (n : nat) (Zr : list vector) :
  call (mkCPM m n (mkMatrix n n Zr)) (mkMatrix 0 n []) =
  if n =? 0 then Ok (mkMatrix 0 0 [])
  else Raise (TypeError "unsupported operand parent(s) for *").
Proof. destruct n; reflexivity. Qed.

(** C2: on a matrix [A] with [n] columns and at least one row, the CPM
    returns the entrywise sum of [A] and of the matrix whose rows all are
    [column_parity(A) * Z].  The functions of the embedding are pure: [A]
    is a value, and the result is a new matrix. *)
Theorem call_broadcast_effect (theta : CPM) (A : matrix) :
  valid theta -> wf A -> GF2.ncols A = ncols theta -> 1 <= GF2.nrows A ->
  exists p e,
    column_parity A = Vec p /\
    vec_mul p (parity_folding_matrix theta) = Ok e /\
    effect theta A = Ok (EffectVec e) /\
    expanded_effect theta A =
      Ok (mkMatrix (GF2.nrows A) (GF2.ncols A) (repeat e (GF2.nrows A))) /\
    call theta A =
      add A (mkMatrix (GF2.nrows A) (GF2.ncols A) (repeat e (GF2.nrows A))) /\
    call theta A =
      Ok (mkMatrix (GF2.nrows A) (GF2.ncols A)
            (map (fun a => vadd a e) (rows A))).
Proof.
  intros Hv Hwf Hc Hn.
  destruct (valid_inv theta Hv) as [Zr (Ht & Hm & Hl & Hr)].
  destruct (column_parity_vec A Hwf Hn) as [p [Hp Hlen]].
  unfold ncols in Hc.
  exists p, (vecmat (_ncols theta) p Zr).
  assert (Hvm : vec_mul p (parity_folding_matrix theta) =
                Ok (vecmat (_ncols theta) p Zr)).
  { rewrite Ht. unfold vec_mul, parity_folding_matrix. simpl.
    rewrite Hlen, Hc, Nat.eqb_refl. reflexivity. }
  assert (Hcall : call theta A =
            Ok (mkMatrix (GF2.nrows A) (GF2.ncols A)
                  (map (fun a => vadd a (vecmat (_ncols theta) p Zr)) (rows A)))).
  { rewrite Ht at 1. rewrite (call_rows _ _ _ A p Hwf Hc Hp). now rewrite Hc. }
  repeat split; auto.
  - unfold effect. rewrite Hp, Hvm. reflexivity.
  - rewrite Ht. unfold expanded_effect, expanded_column_parity,
      parity_folding_matrix, mul. rewrite Hp. simpl.
    rewrite Hlen, Hc, Nat.eqb_refl. now rewrite mmul_repeat.
  - rewrite Hcall. unfold add. simpl. rewrite !Nat.eqb_refl. simpl.
    destruct Hwf as [Hlr _]. rewrite <- Hlr at 3.
    now rewrite madd_repeat_r.
Qed.

Lemma call_broadcast_effect_witness :
  exists p e,
    column_parity A58 = Vec p /\
    vec_mul p (mkMatrix 8 8 (bits Z8)) = Ok e /\
    effect (mkCPM 5 8 (mkMatrix 8 8 (bits Z8))) A58 = Ok (EffectVec e) /\
    expanded_effect (mkCPM 5 8 (mkMatrix 8 8 (bits Z8))) A58 =
      Ok (mkMatrix 5 8 (repeat e 5)) /\
    call (mkCPM 5 8 (mkMatrix 8 8 (bits Z8))) A58 =
      add A58 (mkMatrix 5 8 (repeat e 5)) /\
    call (mkCPM 5 8 (mkMatrix 8 8 (bits Z8))) A58 =
      Ok (mkMatrix 5 8 (map (fun a => vadd a e) (rows A58))).
Proof.
  apply (call_broadcast_effect (mkCPM 5 8 (mkMatrix 8 8 (bits Z8))) A58).
  - apply validb_valid. reflexivity.
  - apply wfb_wf. reflexivity.
  - reflexivity.
  - simpl. lia.
Defined.

Lemma fold_left_vadd_acc (rs : list vector) (acc y : vector) :
  fold_left vadd rs (vadd acc y) = vadd (fold_left vadd rs acc) y.
Proof.
  revert acc; induction rs as [|s rs IH]; intros acc; simpl; auto.
  rewrite <- IH. f_equal.
  rewrite !vadd_assoc. f_equal. apply vadd_comm.
Qed.

Lemma fold_left_vadd_map (c : nat) (rs : list vector) (acc e : vector) :
  rect c rs -> length acc = c -> length e = c ->
  fold_left vadd (map (fun a => vadd a e) rs) acc =
  vadd (fold_left vadd rs acc) (if Nat.even (length rs) then vzero c else e).
Proof.
  revert acc; induction rs as [|s rs IH]; intros acc Hrs Hacc He.
  - simpl. symmetry. now apply vadd_vzero_r.
  - apply rect_cons in Hrs as [Hs Hrs].
    cbn [map fold_left length].
    rewrite IH by (auto; rewrite vadd_length; rewrite ?vadd_length; congruence).
    rewrite <- vadd_assoc, fold_left_vadd_acc.
    assert (HF : length (fold_left vadd rs (vadd acc s)) = c).
    { apply fold_left_vadd_length; auto. rewrite vadd_length; congruence. }
    rewrite Nat.even_succ, <- Nat.negb_even.
    destruct (Nat.even (length rs)); simpl.
    + apply vadd_vzero_r. rewrite vadd_length; congruence.
    + rewrite vadd_cancel_r by congruence.
      symmetry. now apply vadd_vzero_r.
Qed.

(** The column parity after one application: unchanged when the number of
    rows is even, else with the effect added. *)
Lemma column_parity_call (r c : nat) (A : matrix) (p e : vector) :
  wf A -> GF2.ncols A = c -> length e = c ->
  column_parity A = Vec p ->
  column_parity (mkMatrix r c (map (fun a => vadd a e) (rows A))) =
  Vec (if Nat.even (length (rows A)) then p else vadd p e).
Proof.
  intros [_ Hr] Hc He Hp. unfold column_parity in *.
  destruct (rows A) as [|r0 rs]; [discriminate|].
  inversion Hp; subst p; clear Hp. rewrite Hc in Hr.
  apply rect_cons in Hr as [Hr0 Hrs]. cbn [map rows length].
  f_equal.
  rewrite (fold_left_vadd_map c) by (auto; rewrite vadd_length; congruence).
  rewrite fold_left_vadd_acc.
  assert (HF : length (fold_left vadd rs r0) = c)
    by now apply fold_left_vadd_length.
  rewrite Nat.even_succ, <- Nat.negb_even.
  destruct (Nat.even (length rs)); simpl.
  - apply vadd_vzero_r. rewrite vadd_length; congruence.
  - apply vadd_cancel_r. congruence.
Qed.

(** The folded parity of a composition, odd case. *)
Lemma vecmat_compose_odd (n : nat) (p : vector) (Zr Zr' : list vector) :
  length p = n -> length Zr = n -> rect n Zr ->
  length Zr' = n -> rect n Zr' ->
  vecmat n p (madd (mmul n (madd Zr (identity_rows n))
                           (madd Zr' (identity_rows n)))
                   (identity_rows n)) =
  vadd (vecmat n p Zr) (vecmat n (vadd p (vecmat n p Zr)) Zr').
Proof.
  intros Hp HZl HZr HZl' HZr'.
  pose proof (identity_rows_length n) as HIl.
  pose proof (rect_identity n) as HIr.
  assert (He : length (vecmat n p Zr) = n) by now apply vecmat_length.
  rewrite vecmat_madd_r;
    [|rewrite mmul_length, madd_length; congruence
     |apply rect_mmul; now apply rect_madd|assumption].
  rewrite <- (vecmat_assoc n n);
    [|now apply rect_madd|rewrite madd_length; congruence|now apply rect_madd].
  rewrite !vecmat_madd_r by (auto; congruence).
  rewrite !vecmat_identity_r
    by (auto; rewrite vadd_length; congruence).
  rewrite (vecmat_vadd_l n p) by (auto; congruence).
  rewrite (vecmat_vadd_l n (vecmat n p Zr)) by (auto; congruence).
  set (e := vecmat n p Zr) in *.
  set (x := vecmat n e Zr'). set (y := vecmat n p Zr').
  rewrite vadd_assoc, (vadd_assoc e p p), vadd_self, Hp.
  rewrite (vadd_vzero_r n e He).
  rewrite (vadd_comm (vadd x y) e). f_equal. apply vadd_comm.
Qed.

(** C1, as stated, fails: the folding matrix of the composition depends on
    the parity of [m], the action on the parity of the number of rows of
    [A].  Here [m = 2] and [A] has one row. *)
Lemma compose_call_counterexample :
  let theta := mkCPM 2 1 (mkMatrix 1 1 [[true]]) in
  let A := mkMatrix 1 1 [[true]] in
  valid theta /\ wf A /\ GF2.ncols A = ncols theta /\
  (alpha <- compose theta theta ;; call alpha A) =
    Ok (mkMatrix 1 1 [[true]]) /\
  (B <- call theta A ;; call theta B) = Ok (mkMatrix 1 1 [[false]]) /\
  (alpha <- compose theta theta ;; call alpha A) <>
  (B <- call theta A ;; call theta B).
Proof.
  repeat split; try (apply validb_valid; reflexivity);
    try (apply wfb_wf; reflexivity); try apply Z.le_refl;
    try (simpl; lia); repeat constructor.
  intros H. discriminate H.
Qed.

(** C1, amended: for CPMs [theta] and [theta'] with the same [m] and [n]
    and every matrix [A] with [n] columns whose number of rows has the
    parity of [m] (in particular, every [A] with [m] rows), applying
    [theta.compose(theta')] to [A] gives the same result as applying
    [theta] and then [theta']; the result is a matrix when [A] has at least
    one row. *)
Theorem compose_call (theta theta' : CPM) (A : matrix) :
  valid theta -> valid theta' ->
  nrows theta = nrows theta' -> ncols theta = ncols theta' ->
  wf A -> GF2.ncols A = ncols theta ->
  Nat.even (GF2.nrows A) = Z.even (nrows theta) ->
  (alpha <- compose theta theta' ;; call alpha A) =
  (B <- call theta A ;; call theta' B) /\
  (1 <= GF2.nrows A ->
   exists C, (B <- call theta A ;; call theta' B) = Ok C).
Proof.
  intros Hv Hv' Hm Hn Hwf Hc Hpar.
  destruct (valid_inv theta Hv) as [Zr (Ht & H1 & HZl & HZr)].
  destruct (valid_inv theta' Hv') as [Zr' (Ht' & _ & HZl' & HZr')].
  unfold nrows, ncols in *. rewrite <- Hm, <- Hn in *.
  set (m := _nrows theta) in *. set (n := _ncols theta) in *.
  rewrite Ht, Ht'. clear Ht Ht'.
  destruct (Nat.eq_dec (GF2.nrows A) 0) as [Hz|Hnz].
  - (* no row: both sides fail, or both are the empty matrix *)
    destruct A as [r c Ar]. destruct Hwf as [Hl _]. simpl in *. subst r c.
    destruct Ar; [|discriminate]. split; [|lia].
    destruct (Z.even m) eqn:He.
    + rewrite compose_even by assumption. cbn [bind].
      rewrite !call_no_rows. destruct n; simpl; auto.
    + discriminate.
  - assert (Hr : 1 <= GF2.nrows A) by lia.
    destruct (column_parity_vec A Hwf Hr) as [p [Hp Hlen]].
    rewrite Hc in Hlen.
    assert (He : length (vecmat n p Zr) = n) by now apply vecmat_length.
    set (e := vecmat n p Zr) in *.
    set (B := mkMatrix (GF2.nrows A) n (map (fun a => vadd a e) (rows A))).
    assert (HB : wf B).
    { destruct Hwf as [Hl Hrect]. split; simpl.
      - now rewrite length_map.
      - apply Forall_map. eapply Forall_impl; [|exact Hrect].
        intros a Ha. simpl in Ha. rewrite vadd_length; congruence. }
    assert (HpB : column_parity B =
                  Vec (if Nat.even (GF2.nrows A) then p else vadd p e)).
    { unfold B. rewrite (column_parity_call _ n A p e) by auto.
      destruct Hwf as [Hl _]. now rewrite Hl. }
    rewrite (call_rows m n Zr A p Hwf Hc Hp). fold e. fold B.
    cbn [bind].
    rewrite (call_rows m n Zr' B _ HB eq_refl HpB).
    assert (Hgoal : forall Z'' : list vector,
              vecmat n p Z'' =
              vadd e (vecmat n (if Nat.even (GF2.nrows A) then p else vadd p e)
                        Zr') ->
              call (mkCPM m n (mkMatrix n n Z'')) A =
              Ok (mkMatrix (GF2.nrows B) n
                    (map (fun a => vadd a
                            (vecmat n (if Nat.even (GF2.nrows A) then p
                                       else vadd p e) Zr')) (rows B)))).
    { intros Z'' HZ''. rewrite (call_rows m n Z'' A p Hwf Hc Hp).
      unfold B. simpl. rewrite map_map. f_equal. f_equal.
      apply map_ext. intros a. now rewrite HZ'', vadd_assoc. }
    split; [|eexists; reflexivity].
    destruct (Z.even m) eqn:Hem.
    + rewrite compose_even by assumption. cbn [bind].
      apply Hgoal. rewrite Hpar.
      apply vecmat_madd_r; auto; congruence.
    + rewrite compose_odd by assumption. cbn [bind].
      apply Hgoal. rewrite Hpar.
      now apply vecmat_compose_odd.
Qed.

Lemma compose_call_witness :
  (alpha <- compose (mkCPM 5 8 (mkMatrix 8 8 (bits Z8)))
                    (mkCPM 5 8 (mkMatrix 8 8 (bits Z8))) ;;
   call alpha A58) =
  (B <- call (mkCPM 5 8 (mkMatrix 8 8 (bits Z8))) A58 ;;
   call (mkCPM 5 8 (mkMatrix 8 8 (bits Z8))) B) /\
  (1 <= GF2.nrows A58 ->
   exists C,
     (B <- call (mkCPM 5 8 (mkMatrix 8 8 (bits Z8))) A58 ;;
      call (mkCPM 5 8 (mkMatrix 8 8 (bits Z8))) B) = Ok C).
Proof.
  apply (compose_call (mkCPM 5 8 (mkMatrix 8 8 (bits Z8)))
                      (mkCPM 5 8 (mkMatrix 8 8 (bits Z8))) A58).
  - apply validb_valid. reflexivity.
  - apply validb_valid. reflexivity.
  - reflexivity.
  - reflexivity.
  - apply wfb_wf. reflexivity.
  - reflexivity.
  - reflexivity.
Defined.

End EvaluationClaims.

(** * Inverse, order and powers *)

Section AlgebraClaims.

Import GF2 Cypm.

Lemma associated_matrix_mk (m : Z) (n : nat) (Zr : list vector) :
  associated_matrix (mkCPM m n (mkMatrix n n Zr)) =
  Ok (mkMatrix n n (madd Zr (identity_rows n))).
Proof.
  unfold associated_matrix, add, parity_folding_matrix, ncols. simpl.
  now rewrite Nat.eqb_refl.
Qed.

Lemma is_invertible_mk (m : Z) (n : nat) (Zr : list vector) :
  is_invertible (mkCPM m n (mkMatrix n n Zr)) =
  if Z.even m then Ok true
  else match inverse_rows n (madd Zr (identity_rows n)) with
       | Some _ => Ok true
       | None => Ok false
       end.
Proof.
  unfold is_invertible. unfold nrows at 1. cbn [_nrows].
  destruct (Z.even m); auto.
  rewrite associated_matrix_mk. cbn [bind].
  unfold is_singular, is_square. simpl. rewrite Nat.eqb_refl.
  now destruct (inverse_rows n (madd Zr (identity_rows n))).
Qed.

Lemma inverse_mk_even (m : Z) (n : nat) (Zr : list vector) :
  Z.even m = true ->
  inverse (mkCPM m n (mkMatrix n n Zr)) = Ok (mkCPM m n (mkMatrix n n Zr)).
Proof.
  intros He. unfold inverse. rewrite is_invertible_mk, He. cbn [bind negb].
  unfold nrows. cbn [_nrows]. now rewrite He.
Qed.

Lemma inverse_mk_odd (m : Z) (n : nat) (Zr N : list vector) :
  (1 <= m)%Z -> Z.even m = false ->
  inverse_rows n (madd Zr (identity_rows n)) = Some N ->
  inverse (mkCPM m n (mkMatrix n n Zr)) =
  Ok (mkCPM m n (mkMatrix n n (madd N (identity_rows n)))).
Proof.
  intros Hm He HN. unfold inverse. rewrite is_invertible_mk, He, HN.
  cbn [bind negb]. unfold nrows at 1. cbn [_nrows]. rewrite He.
  rewrite associated_matrix_mk. cbn [bind].
  unfold GF2.inverse, is_square, sub, identity_matrix, ncols. simpl.
  rewrite Nat.eqb_refl, HN. cbn [bind]. simpl. rewrite Nat.eqb_refl. simpl.
  now apply new_square.
Qed.

Lemma is_zero_repeat (r c : nat) :
  is_zero (mkMatrix r c (repeat (vzero c) r)) = true.
Proof.
  unfold is_zero. simpl. apply forallb_forall. intros v Hv.
  apply repeat_spec in Hv. subst v.
  apply forallb_forall. intros b Hb. apply repeat_spec in Hb. now subst b.
Qed.

Lemma madd_identity_self (n : nat) :
  madd (identity_rows n) (identity_rows n) = repeat (vzero n) n.
Proof.
  rewrite (madd_self n) by apply rect_identity.
  now rewrite identity_rows_length.
Qed.

(** C3: for an invertible CPM [theta], [theta.compose(theta.inverse())] is
    the identity CPM. *)
Theorem compose_inverse_identity (theta : CPM) :
  valid theta -> is_invertible theta = Ok true ->
  exists theta_inv alpha,
    inverse theta = Ok theta_inv /\
    compose theta theta_inv = Ok alpha /\
    is_identity alpha = true.
Proof.
  intros Hv Hinv.
  destruct (valid_inv theta Hv) as [Zr (Ht & Hm & HZl & HZr)].
  set (m := _nrows theta) in *. set (n := _ncols theta) in *.
  rewrite Ht in *. clear Ht.
  rewrite is_invertible_mk in Hinv.
  destruct (Z.even m) eqn:He.
  - exists (mkCPM m n (mkMatrix n n Zr)). eexists.
    rewrite inverse_mk_even, compose_even by assumption.
    repeat split. unfold is_identity, parity_folding_matrix. cbn [_Z].
    rewrite (madd_self n), HZl by assumption. apply is_zero_repeat.
  - destruct (inverse_rows n (madd Zr (identity_rows n))) as [N|] eqn:HN;
      [|discriminate].
    assert (HMl : length (madd Zr (identity_rows n)) = n)
      by (rewrite madd_length; rewrite ?identity_rows_length; congruence).
    assert (HMr : rect n (madd Zr (identity_rows n)))
      by (apply rect_madd; auto using rect_identity).
    destruct (inverse_rows_sound n _ N HMl HMr HN) as (HNl & HNr & HNM & HMN).
    do 2 eexists.
    rewrite (inverse_mk_odd m n Zr N), compose_odd by assumption.
    repeat split. unfold is_identity, parity_folding_matrix. cbn [_Z].
    rewrite (madd_cancel_r n N)
      by (auto using rect_identity; rewrite identity_rows_length; congruence).
    rewrite HMN, madd_identity_self. apply is_zero_repeat.
Qed.

Lemma compose_inverse_identity_witness :
  exists theta_inv alpha,
    inverse (mkCPM 5 8 (mkMatrix 8 8 (bits Z8))) = Ok theta_inv /\
    compose (mkCPM 5 8 (mkMatrix 8 8 (bits Z8))) theta_inv = Ok alpha /\
    is_identity alpha = true.
Proof.
  apply (compose_inverse_identity (mkCPM 5 8 (mkMatrix 8 8 (bits Z8)))).
  - apply validb_valid. reflexivity.
  - reflexivity.
Defined.

(** C4: for an invertible CPM [theta], the inverse is invertible and its
    inverse is [theta] itself: same [m], same folding matrix. *)
Theorem inverse_inverse (theta : CPM) :
  valid theta -> is_invertible theta = Ok true ->
  exists theta_inv theta_inv_inv,
    inverse theta = Ok theta_inv /\
    inverse theta_inv = Ok theta_inv_inv /\
    is_equal theta_inv_inv theta = Ok true /\
    nrows theta_inv_inv = nrows theta /\
    parity_folding_matrix theta_inv_inv = parity_folding_matrix theta.
Proof.
  intros Hv Hinv.
  destruct (valid_inv theta Hv) as [Zr (Ht & Hm & HZl & HZr)].
  set (m := _nrows theta) in *. set (n := _ncols theta) in *.
  rewrite Ht in *. clear Ht.
  rewrite is_invertible_mk in Hinv.
  assert (Heq : is_equal (mkCPM m n (mkMatrix n n Zr))
                         (mkCPM m n (mkMatrix n n Zr)) = Ok true).
  { unfold is_equal, nrows, parity_folding_matrix. simpl.
    now rewrite Z.eqb_refl, eqb_refl. }
  destruct (Z.even m) eqn:He.
  - exists (mkCPM m n (mkMatrix n n Zr)), (mkCPM m n (mkMatrix n n Zr)).
    rewrite inverse_mk_even by assumption. auto.
  - destruct (inverse_rows n (madd Zr (identity_rows n))) as [N|] eqn:HN;
      [|discriminate].
    assert (HMl : length (madd Zr (identity_rows n)) = n)
      by (rewrite madd_length; rewrite ?identity_rows_length; congruence).
    assert (HMr : rect n (madd Zr (identity_rows n)))
      by (apply rect_madd; auto using rect_identity).
    destruct (inverse_rows_sound n _ N HMl HMr HN) as (HNl & HNr & HNM & HMN).
    pose proof (inverse_rows_involutive n _ N HMl HMr HN) as HN'.
    exists (mkCPM m n (mkMatrix n n (madd N (identity_rows n)))),
           (mkCPM m n (mkMatrix n n Zr)).
    rewrite (inverse_mk_odd m n Zr N) by assumption.
    rewrite (inverse_mk_odd m n (madd N (identity_rows n))
               (madd Zr (identity_rows n))); auto.
    + rewrite (madd_cancel_r n Zr)
        by (auto using rect_identity; rewrite identity_rows_length; congruence).
      auto.
    + rewrite (madd_cancel_r n N)
        by (auto using rect_identity; rewrite identity_rows_length; congruence).
      exact HN'.
Qed.

Lemma inverse_inverse_witness :
  exists theta_inv theta_inv_inv,
    inverse (mkCPM 5 8 (mkMatrix 8 8 (bits Z8))) = Ok theta_inv /\
    inverse theta_inv = Ok theta_inv_inv /\
    is_equal theta_inv_inv (mkCPM 5 8 (mkMatrix 8 8 (bits Z8))) = Ok true /\
    nrows theta_inv_inv = nrows (mkCPM 5 8 (mkMatrix 8 8 (bits Z8))) /\
    parity_folding_matrix theta_inv_inv =
    parity_folding_matrix (mkCPM 5 8 (mkMatrix 8 8 (bits Z8))).
Proof.
  apply (inverse_inverse (mkCPM 5 8 (mkMatrix 8 8 (bits Z8)))).
  - apply validb_valid. reflexivity.
  - reflexivity.
Defined.

Lemma order_mk_odd (m : Z) (n : nat) (Zr : list vector) :
  Z.even m = false ->
  order (mkCPM m n (mkMatrix n n Zr)) =
  multiplicative_order (mkMatrix n n (madd Zr (identity_rows n))).
Proof.
  intros He. unfold order. unfold nrows at 1. cbn [_nrows]. rewrite He.
  now rewrite associated_matrix_mk.
Qed.

(** The multiplicative order of an invertible matrix is the least positive
    exponent of a power equal to the identity. *)
Lemma multiplicative_order_spec (n : nat) (M N : list vector) :
  length M = n -> rect n M -> inverse_rows n M = Some N ->
  exists k,
    multiplicative_order (mkMatrix n n M) = Ok (Z.of_nat k) /\
    1 <= k /\ mpow n M k = identity_rows n /\
    (forall j, 1 <= j < k -> mpow n M j <> identity_rows n).
Proof.
  intros Hl Hr HN.
  destruct (inverse_rows_sound n M N Hl Hr HN) as (HNl & HNr & HNM & HMN).
  destruct (order_search_found n M Hl Hr) as [k (Hk & H1 & He & Hmin)].
  { exists N. auto. }
  exists k. repeat split; auto.
  unfold multiplicative_order, is_square. simpl.
  now rewrite Nat.eqb_refl, HN, Hk.
Qed.

Lemma unit_nth (i j n : nat) :
  i < n -> nth j (unit i n) false = (i =? j).
Proof.
  revert i j; induction n as [|n IH]; intros [|i] [|j] Hi; simpl;
    try lia; auto.
  - apply nth_vzero.
  - apply IH. lia.
Qed.

(** The identity matrix has its ones on the diagonal. *)
Lemma identity_rows_entry (n i j : nat) :
  i < n -> nth j (nth i (identity_rows n) []) false = (i =? j).
Proof.
  intros Hi.
  rewrite (nth_error_nth _ _ [] (identity_rows_nth n i Hi)).
  now apply unit_nth.
Qed.

Lemma nth_madd (i : nat) (X Y : list vector) :
  length X = length Y ->
  nth i (madd X Y) [] = vadd (nth i X []) (nth i Y []).
Proof.
  revert i Y; induction X as [|x X IH]; intros [|i] [|y Y] H; simpl in *;
    try discriminate; auto.
Qed.

(** The entries of [Z + I]: those of [Z], flipped on the diagonal. *)
Lemma associated_rows_entry (n i j : nat) (Zr : list vector) :
  length Zr = n -> rect n Zr -> i < n ->
  nth j (nth i (madd Zr (identity_rows n)) []) false =
  xorb (nth j (nth i Zr []) false) (i =? j).
Proof.
  intros Hl Hr Hi.
  rewrite nth_madd by (rewrite identity_rows_length; congruence).
  rewrite nth_vadd.
  - now rewrite identity_rows_entry.
  - rewrite (nth_error_nth _ _ [] (identity_rows_nth n i Hi)), unit_length.
    eapply Forall_forall in Hr; [exact Hr|]. apply nth_In. lia.
Qed.

(** C6: [order()] returns 2 when [m] is even; when [m] is odd it returns
    the multiplicative order of the associated matrix [M = Z + I_n] (the
    sum of the folding matrix and the identity matrix: the entries of [Z],
    flipped on the diagonal): when [M] is invertible, the least [k >= 1]
    with [M^k = I_n], where [M^1 = M], [M^(j+1) = M^j * M] and [I_n] has
    its ones on the diagonal; and an error when [M] is not invertible. *)
Theorem order_spec (theta : CPM) :
  valid theta ->
  (Z.even (nrows theta) = true -> order theta = Ok 2%Z) /\
  (Z.even (nrows theta) = false ->
   exists M,
     associated_matrix theta = Ok M /\
     add (parity_folding_matrix theta) (identity_matrix (ncols theta)) =
       Ok M /\
     GF2.nrows M = ncols theta /\ GF2.ncols M = ncols theta /\
     rows M = madd (rows (parity_folding_matrix theta))
                   (identity_rows (ncols theta)) /\
     (forall i j, i < ncols theta -> j < ncols theta ->
        nth j (nth i (rows M) []) false =
        xorb (nth j (nth i (rows (parity_folding_matrix theta)) []) false)
             (i =? j)) /\
     (forall i j, i < ncols theta -> j < ncols theta ->
        nth j (nth i (identity_rows (ncols theta)) []) false = (i =? j)) /\
     mpow (ncols theta) (rows M) 1 = rows M /\
     (forall j, mul (mkMatrix (ncols theta) (ncols theta)
                       (mpow (ncols theta) (rows M) j)) M =
                Ok (mkMatrix (ncols theta) (ncols theta)
                       (mpow (ncols theta) (rows M) (S j)))) /\
     order theta = multiplicative_order M /\
     (is_invertible theta = Ok true ->
      exists k,
        order theta = Ok (Z.of_nat k) /\ 1 <= k /\
        mpow (ncols theta) (rows M) k = identity_rows (ncols theta) /\
        (forall j, 1 <= j < k ->
           mpow (ncols theta) (rows M) j <> identity_rows (ncols theta))) /\
     (is_invertible theta = Ok false -> exists e, order theta = Raise e)).
Proof.
  intros Hv.
  destruct (valid_inv theta Hv) as [Zr (Ht & Hm & HZl & HZr)].
  unfold nrows, ncols.
  set (m := _nrows theta) in *. set (n := _ncols theta) in *.
  rewrite Ht. clear Ht. split; intros He.
  - unfold order, nrows. cbn [_nrows]. now rewrite He.
  - exists (mkMatrix n n (madd Zr (identity_rows n))).
    rewrite associated_matrix_mk, order_mk_odd, is_invertible_mk, He
      by assumption.
    assert (HMl : length (madd Zr (identity_rows n)) = n)
      by (rewrite madd_length; rewrite ?identity_rows_length; congruence).
    assert (HMr : rect n (madd Zr (identity_rows n)))
      by (apply rect_madd; auto using rect_identity).
    unfold parity_folding_matrix. cbn [_Z rows GF2.nrows GF2.ncols].
    split; [reflexivity|]. split.
    { unfold add, identity_matrix. simpl. now rewrite Nat.eqb_refl. }
    split; [reflexivity|]. split; [reflexivity|]. split; [reflexivity|].
    split.
    { intros i j Hi _. now apply associated_rows_entry. }
    split.
    { intros i j Hi _. now apply identity_rows_entry. }
    split.
    { now apply mpow_1. }
    split.
    { intros j. unfold mul. simpl. now rewrite Nat.eqb_refl. }
    split; [reflexivity|]. split.
    + intros Hinv.
      destruct (inverse_rows n (madd Zr (identity_rows n))) as [N|] eqn:HN;
        [|discriminate].
      apply (multiplicative_order_spec n _ N); auto.
    + intros Hinv.
      destruct (inverse_rows n (madd Zr (identity_rows n))) as [N|] eqn:HN;
        [discriminate|].
      unfold multiplicative_order, is_square. simpl.
      rewrite Nat.eqb_refl, HN. eexists. reflexivity.
Qed.

Lemma order_spec_witness :
  (Z.even (nrows (mkCPM 5 8 (mkMatrix 8 8 (bits Z8)))) = false ->
   exists k,
     order (mkCPM 5 8 (mkMatrix 8 8 (bits Z8))) = Ok (Z.of_nat k) /\
     1 <= k) /\
  valid (mkCPM 5 8 (mkMatrix 8 8 (bits Z8))) /\
  is_invertible (mkCPM 5 8 (mkMatrix 8 8 (bits Z8))) = Ok true.
Proof.
  assert (Hv : valid (mkCPM 5 8 (mkMatrix 8 8 (bits Z8))))
    by (apply validb_valid; reflexivity).
  split; [|split; [exact Hv|reflexivity]].
  intros Hodd.
  destruct (order_spec (mkCPM 5 8 (mkMatrix 8 8 (bits Z8))) Hv)
    as [_ Hspec].
  destruct (Hspec Hodd) as (M & _ & _ & _ & _ & _ & _ & _ & _ & _ & _ & Hk & _).
  destruct (Hk eq_refl) as (k & Hord & H1 & _).
  exists k. auto.
Defined.


Lemma is_zero_rows (c : nat) (X : list vector) :
  rect c X -> forallb (forallb negb) X = true ->
  X = repeat (vzero c) (length X).
Proof.
  induction X as [|r X IH]; intros HX Hz; simpl in *; auto.
  apply rect_cons in HX as [Hr HX]. apply andb_true_iff in Hz as [Hz1 Hz2].
  f_equal; auto.
  subst c. clear -Hz1. induction r as [|b r IH]; simpl in *; auto.
  apply andb_true_iff in Hz1 as [Hb Hr]. rewrite vzero_S.
  destruct b; [discriminate|]. f_equal. auto.
Qed.

Lemma madd_zero_l (c : nat) (X : list vector) :
  rect c X -> madd (repeat (vzero c) (length X)) X = X.
Proof.
  induction X as [|r X IH]; intros HX; simpl; auto.
  apply rect_cons in HX as [Hr HX]. rewrite IH by assumption.
  f_equal. rewrite <- Hr. apply vadd_zero_l.
Qed.

(** In the odd case a CPM is the identity when its associated matrix is. *)
Lemma is_zero_associated (n : nat) (P : list vector) :
  length P = n -> rect n P ->
  is_zero (mkMatrix n n (madd P (identity_rows n))) = true <->
  P = identity_rows n.
Proof.
  intros Hl Hr. pose proof (identity_rows_length n) as HIl.
  pose proof (rect_identity n) as HIr. split.
  - intros Hz. unfold is_zero in Hz. simpl in Hz.
    apply (is_zero_rows n) in Hz; [|now apply rect_madd].
    rewrite madd_length in Hz by congruence.
    rewrite <- (madd_cancel_r n P (identity_rows n)) by (auto; congruence).
    rewrite Hz, Hl, <- HIl at 1. rewrite HIl at 1.
    replace n with (length (identity_rows n)) at 2 by assumption.
    now apply madd_zero_l.
  - intros ->. rewrite madd_identity_self. apply is_zero_repeat.
Qed.

Section OddPowers.

Variable m : Z.
Variable n : nat.
Variable Zr : list vector.
Hypothesis m_pos : (1 <= m)%Z.
Hypothesis m_odd : Z.even m = false.
Hypothesis Zr_length : length Zr = n.
Hypothesis Zr_rect : rect n Zr.

Local Abbreviation M := (madd Zr (identity_rows n)).

Lemma associated_shape : length M = n /\ rect n M.
Proof.
  split.
  - rewrite madd_length; rewrite ?identity_rows_length; congruence.
  - apply rect_madd; auto using rect_identity.
Qed.

(** After [k] more compositions the associated matrix has been multiplied
    by [M], [k] times. *)
Lemma pow_loop_odd (k j : nat) :
  pow_loop (mkCPM m n (mkMatrix n n Zr)) k
    (mkCPM m n (mkMatrix n n (madd (mpow n M (S j)) (identity_rows n)))) =
  Ok (mkCPM m n (mkMatrix n n (madd (mpow n M (S j + k)) (identity_rows n)))).
Proof.
  destruct associated_shape as [HMl HMr].
  revert j; induction k as [|k IH]; intros j.
  - now rewrite Nat.add_0_r.
  - cbn [pow_loop]. rewrite compose_odd by assumption. cbn [bind].
    destruct (mpow_shape n M HMr (S j)) as [Hl Hr].
    rewrite (madd_cancel_r n (mpow n M (S j)))
      by (auto using rect_identity; rewrite identity_rows_length; congruence).
    change (mmul n (mpow n M (S j)) M) with (mpow n M (S (S j))).
    replace (S j + S k) with (S (S j) + k) by lia. apply IH.
Qed.

Lemma pow_odd (e : Z) :
  (1 <= e)%Z ->
  pow (mkCPM m n (mkMatrix n n Zr)) e =
  Ok (mkCPM m n (mkMatrix n n
        (madd (mpow n M (Z.to_nat e)) (identity_rows n)))).
Proof.
  intros He. destruct associated_shape as [HMl HMr].
  unfold pow. destruct (e <? 1)%Z eqn:E; [apply Z.ltb_lt in E; lia|].
  unfold nrows, parity_folding_matrix. cbn [_nrows _Z].
  rewrite new_square by assumption. cbn [bind].
  assert (HZ : Zr = madd (mpow n M 1) (identity_rows n)).
  { rewrite (mpow_1 n M HMl HMr). symmetry.
    apply (madd_cancel_r n); auto using rect_identity.
    rewrite identity_rows_length; congruence. }
  rewrite HZ at 2. rewrite pow_loop_odd.
  replace (1 + Z.to_nat (e - 1)) with (Z.to_nat e) by lia. reflexivity.
Qed.

End OddPowers.

(** For odd [m], and for even [m] when [Z] is not zero, [order()] is the
    least positive exponent of a power that is the identity CPM. *)
Theorem pow_order_minimal (theta : CPM) :
  valid theta -> is_invertible theta = Ok true ->
  Z.even (nrows theta) = false \/ is_identity theta = false ->
  exists k,
    order theta = Ok k /\
    (exists alpha, pow theta k = Ok alpha /\ is_identity alpha = true) /\
    (forall j, (0 < j < k)%Z ->
       exists alpha, pow theta j = Ok alpha /\ is_identity alpha = false).
Proof.
  intros Hv Hinv Hcase.
  destruct (valid_inv theta Hv) as [Zr (Ht & Hm & HZl & HZr)].
  unfold nrows in *.
  set (m := _nrows theta) in *. set (n := _ncols theta) in *.
  rewrite Ht in *. clear Ht. cbn [_nrows] in *.
  rewrite is_invertible_mk in Hinv.
  destruct (Z.even m) eqn:He.
  - destruct Hcase as [Hc|Hid]; [discriminate|].
    exists 2%Z. repeat split.
    + unfold order, nrows. cbn [_nrows]. now rewrite He.
    + eexists. split.
      * unfold pow, nrows, parity_folding_matrix. cbn [_nrows _Z].
        rewrite new_square by assumption. cbn [bind Z.ltb Z.compare].
        change (Z.to_nat (2 - 1)) with 1. cbn [pow_loop].
        rewrite compose_even by assumption. reflexivity.
      * unfold is_identity, parity_folding_matrix. cbn [_Z].
        rewrite (madd_self n), HZl by assumption. apply is_zero_repeat.
    + intros j Hj. assert (j = 1%Z) by lia. subst j.
      eexists. split; [|exact Hid].
      unfold pow, nrows, parity_folding_matrix. cbn [_nrows _Z].
      rewrite new_square by assumption. reflexivity.
  - destruct (inverse_rows n (madd Zr (identity_rows n))) as [N|] eqn:HN;
      [|discriminate].
    destruct (associated_shape n Zr HZl HZr) as [HMl HMr].
    destruct (multiplicative_order_spec n _ N HMl HMr HN)
      as [k (Hk & H1 & Hpow & Hmin)].
    exists (Z.of_nat k). repeat split.
    + now rewrite order_mk_odd.
    + eexists. split; [apply pow_odd; auto; lia|].
      unfold is_identity, parity_folding_matrix. cbn [_Z].
      rewrite Nat2Z.id, Hpow, madd_identity_self. apply is_zero_repeat.
    + intros j Hj. eexists. split; [apply pow_odd; auto; lia|].
      unfold is_identity, parity_folding_matrix. cbn [_Z].
      destruct (is_zero _) eqn:Hz; auto.
      apply is_zero_associated in Hz; try apply mpow_shape; auto.
      exfalso. apply (Hmin (Z.to_nat j)); auto. lia.
Qed.

Lemma pow_order_minimal_witness :
  exists k,
    order (mkCPM 5 8 (mkMatrix 8 8 (bits Z8))) = Ok k /\
    (exists alpha,
       pow (mkCPM 5 8 (mkMatrix 8 8 (bits Z8))) k = Ok alpha /\
       is_identity alpha = true) /\
    (forall j, (0 < j < k)%Z ->
       exists alpha,
         pow (mkCPM 5 8 (mkMatrix 8 8 (bits Z8))) j = Ok alpha /\
         is_identity alpha = false).
Proof.
  apply (pow_order_minimal (mkCPM 5 8 (mkMatrix 8 8 (bits Z8)))).
  - apply validb_valid. reflexivity.
  - reflexivity.
  - left. reflexivity.
Defined.

(** C7 at the CPM with [m = 2] and [Z = (0)]: it is invertible and
    [order()] returns 2, yet its first power is the identity CPM already, so
    that 2 is not the least exponent. *)
Lemma pow_order_even_identity :
  let theta := mkCPM 2 1 (mkMatrix 1 1 [[false]]) in
  valid theta /\
  is_invertible theta = Ok true /\
  order theta = Ok 2%Z /\
  pow theta 1 = Ok theta /\
  is_identity theta = true /\
  ~ (forall k, (0 < k < 2)%Z ->
       exists alpha, pow theta k = Ok alpha /\ is_identity alpha = false).
Proof.
  repeat split; try apply Z.le_refl; try (simpl; lia); repeat constructor.
  intros H. destruct (H 1%Z) as [alpha [Hp Hi]]; [lia|].
  inversion Hp; subst alpha. discriminate Hi.
Qed.

End AlgebraClaims.

(** * The examples of the docstrings *)

Section DocstringExamples.

Import GF2 Cypm.

Example theta8_is_invertible :
  (theta <- theta8 ;; is_invertible theta) = Ok true.
Proof. reflexivity. Qed.

Example theta8_order : (theta <- theta8 ;; order theta) = Ok 8%Z.
Proof. vm_compute. reflexivity. Qed.

Example theta8_associated_matrix :
  (theta <- theta8 ;; associated_matrix theta) =
  Ok (mkMatrix 8 8 (bits
    [[0;0;0;0;0;0;0;1];
     [1;0;0;0;0;0;0;0];
     [0;1;0;0;0;0;0;0];
     [0;0;1;0;0;0;0;0];
     [0;0;0;1;0;0;0;0];
     [0;0;0;0;1;0;0;0];
     [0;0;0;0;0;1;0;0];
     [0;0;0;0;0;0;1;0]]%Z)).
Proof. reflexivity. Qed.

Example theta8_call :
  (theta <- theta8 ;; call theta A58) =
  Ok (mkMatrix 5 8 (bits
    [[0;1;0;0;1;0;0;1];
     [1;1;0;0;1;0;0;1];
     [0;1;0;0;1;0;0;1];
     [0;1;1;0;1;0;0;1];
     [0;0;1;0;1;0;0;1]]%Z)).
Proof. reflexivity. Qed.

Example theta8_compose_inverse :
  (theta <- theta8 ;; thetainv <- inverse theta ;;
   I <- compose theta thetainv ;; associated_matrix I) =
  Ok (identity_matrix 8).
Proof. vm_compute. reflexivity. Qed.

Example A58_column_parity :
  column_parity A58 =
  Vec [true; true; false; false; false; true; false; false].
Proof. reflexivity. Qed.

Example A58_odd_columns : odd_columns A58 = Ok [0; 1; 5].
Proof. reflexivity. Qed.

Example A58_even_columns : even_columns A58 = Ok [2; 3; 4; 6; 7].
Proof. reflexivity. Qed.

Example theta3_order : (theta <- theta3 ;; order theta) = Ok 7%Z.
Proof. vm_compute. reflexivity. Qed.

Example theta3_pow_7 :
  (theta <- theta3 ;; t7 <- pow theta 7 ;; Ok (is_identity t7)) = Ok true.
Proof. vm_compute. reflexivity. Qed.

Example theta3_pow_8 :
  (theta <- theta3 ;; t8 <- pow theta 8 ;; eq t8 theta) = Ok true.
Proof. vm_compute. reflexivity. Qed.

Example theta4_effect :
  (theta <- new 4 (ZList [[1; 1; 0]; [0; 1; 1]; [1; 0; 1]]%Z) ;;
   effect theta
     (mkMatrix 4 3 (bits [[1; 1; 1]; [0; 1; 0]; [1; 0; 1]; [0; 1; 1]]%Z))) =
  Ok (EffectVec [true; true; false]).
Proof. reflexivity. Qed.

End DocstringExamples.

(** * The algebra of composition *)

Section CompositionFacts.

Import GF2 Cypm.

Lemma compose_rows_shape (m : Z) (n : nat) (Zr Zr' : list vector) :
  length Zr = n -> rect n Zr -> length Zr' = n -> rect n Zr' ->
  length (compose_rows m n Zr Zr') = n /\ rect n (compose_rows m n Zr Zr').
Proof.
  intros Hl Hr Hl' Hr'. unfold compose_rows.
  pose proof (identity_rows_length n) as HIl.
  pose proof (rect_identity n) as HIr.
  destruct (Z.even m); split.
  - rewrite madd_length; congruence.
  - now apply rect_madd.
  - rewrite madd_length; rewrite mmul_length, madd_length; congruence.
  - apply rect_madd; auto. apply rect_mmul. now apply rect_madd.
Qed.

Lemma compose_mk (m : Z) (n : nat) (Zr Zr' : list vector) :
  (1 <= m)%Z ->
  compose (mkCPM m n (mkMatrix n n Zr)) (mkCPM m n (mkMatrix n n Zr')) =
  Ok (mkCPM m n (mkMatrix n n (compose_rows m n Zr Zr'))).
Proof.
  intros Hm. unfold compose_rows. destruct (Z.even m) eqn:He.
  - now apply compose_even.
  - now apply compose_odd.
Qed.

(** Composition is defined exactly on CPMs of the same [(m, n)], where it
    gives a CPM of that [(m, n)]; else it raises [DimensionMismatch]. *)
Theorem compose_result (theta theta' : CPM) :
  valid theta -> valid theta' ->
  (nrows theta = nrows theta' /\ ncols theta = ncols theta' ->
   exists alpha,
     compose theta theta' = Ok alpha /\ valid alpha /\
     nrows alpha = nrows theta /\ ncols alpha = ncols theta) /\
  (nrows theta <> nrows theta' \/ ncols theta <> ncols theta' ->
   compose theta theta' = Raise DimensionMismatch).
Proof.
  intros Hv Hv'. split.
  - intros [Hm Hn].
    destruct (valid_inv theta Hv) as [Zr (Ht & H1 & HZl & HZr)].
    destruct (valid_inv theta' Hv') as [Zr' (Ht' & _ & HZl' & HZr')].
    unfold nrows, ncols in *. rewrite Ht, Ht', <- Hm, <- Hn.
    rewrite <- Hn in HZl', HZr'.
    rewrite compose_mk by assumption. eexists. split; [reflexivity|].
    destruct (compose_rows_shape (_nrows theta) (_ncols theta) Zr Zr')
      as [Hl Hr]; auto.
    split; [now apply valid_mk|]. simpl. auto.
  - intros Hd. unfold compose, DimensionMismatch.
    destruct Hd as [Hd|Hd].
    + apply Z.eqb_neq in Hd. now rewrite Hd.
    + apply Nat.eqb_neq in Hd. rewrite Hd. now rewrite orb_true_r.
Qed.

Lemma compose_result_witness :
  (nrows (mkCPM 5 8 (mkMatrix 8 8 (bits Z8))) =
   nrows (mkCPM 5 8 (mkMatrix 8 8 (bits Z8))) /\
   ncols (mkCPM 5 8 (mkMatrix 8 8 (bits Z8))) =
   ncols (mkCPM 5 8 (mkMatrix 8 8 (bits Z8))) ->
   exists alpha,
     compose (mkCPM 5 8 (mkMatrix 8 8 (bits Z8)))
             (mkCPM 5 8 (mkMatrix 8 8 (bits Z8))) = Ok alpha /\
     valid alpha /\
     nrows alpha = nrows (mkCPM 5 8 (mkMatrix 8 8 (bits Z8))) /\
     ncols alpha = ncols (mkCPM 5 8 (mkMatrix 8 8 (bits Z8)))) /\
  (nrows (mkCPM 5 8 (mkMatrix 8 8 (bits Z8))) <>
   nrows (mkCPM 5 8 (mkMatrix 8 8 (bits Z8))) \/
   ncols (mkCPM 5 8 (mkMatrix 8 8 (bits Z8))) <>
   ncols (mkCPM 5 8 (mkMatrix 8 8 (bits Z8))) ->
   compose (mkCPM 5 8 (mkMatrix 8 8 (bits Z8)))
           (mkCPM 5 8 (mkMatrix 8 8 (bits Z8))) = Raise DimensionMismatch).
Proof.
  apply (compose_result (mkCPM 5 8 (mkMatrix 8 8 (bits Z8)))
                        (mkCPM 5 8 (mkMatrix 8 8 (bits Z8))));
    apply validb_valid; reflexivity.
Defined.

Lemma compose_rows_assoc (m : Z) (n : nat) (X Y W : list vector) :
  length X = n -> rect n X -> length Y = n -> rect n Y ->
  length W = n -> rect n W ->
  compose_rows m n (compose_rows m n X Y) W =
  compose_rows m n X (compose_rows m n Y W).
Proof.
  intros HXl HXr HYl HYr HWl HWr. unfold compose_rows.
  pose proof (identity_rows_length n) as HIl.
  pose proof (rect_identity n) as HIr.
  destruct (Z.even m).
  - apply madd_assoc.
  - assert (HX' : rect n (madd X (identity_rows n))) by now apply rect_madd.
    assert (HY' : rect n (madd Y (identity_rows n))) by now apply rect_madd.
    assert (HW' : rect n (madd W (identity_rows n))) by now apply rect_madd.
    assert (HYl' : length (madd Y (identity_rows n)) = n)
      by (rewrite madd_length; congruence).
    assert (HWl' : length (madd W (identity_rows n)) = n)
      by (rewrite madd_length; congruence).
    rewrite !(madd_cancel_r n)
      by (auto using rect_mmul; rewrite mmul_length, madd_length; congruence).
    f_equal. now apply mmul_assoc.
Qed.

(** Composition is associative. *)
Theorem compose_assoc (t1 t2 t3 : CPM) :
  valid t1 -> valid t2 -> valid t3 ->
  nrows t1 = nrows t2 -> ncols t1 = ncols t2 ->
  nrows t2 = nrows t3 -> ncols t2 = ncols t3 ->
  (a <- compose t1 t2 ;; compose a t3) =
  (b <- compose t2 t3 ;; compose t1 b) /\
  exists alpha, (a <- compose t1 t2 ;; compose a t3) = Ok alpha.
Proof.
  intros Hv1 Hv2 Hv3 Hm12 Hn12 Hm23 Hn23.
  destruct (valid_inv t1 Hv1) as [Z1 (E1 & H1 & Hl1 & Hr1)].
  destruct (valid_inv t2 Hv2) as [Z2 (E2 & _ & Hl2 & Hr2)].
  destruct (valid_inv t3 Hv3) as [Z3 (E3 & _ & Hl3 & Hr3)].
  unfold nrows, ncols in *.
  rewrite E1, E2, E3, <- Hm23, <- Hn23, <- Hm12, <- Hn12.
  rewrite <- Hn23, <- Hn12 in Hl3, Hr3. rewrite <- Hn12 in Hl2, Hr2.
  rewrite !compose_mk by assumption. cbn [bind].
  rewrite !compose_mk by assumption.
  rewrite compose_rows_assoc by assumption.
  split; [reflexivity|eexists; reflexivity].
Qed.

Lemma compose_assoc_witness :
  (a <- compose (mkCPM 5 8 (mkMatrix 8 8 (bits Z8)))
                (mkCPM 5 8 (mkMatrix 8 8 (bits Z8))) ;;
   compose a (mkCPM 5 8 (mkMatrix 8 8 (bits Z8)))) =
  (b <- compose (mkCPM 5 8 (mkMatrix 8 8 (bits Z8)))
                (mkCPM 5 8 (mkMatrix 8 8 (bits Z8))) ;;
   compose (mkCPM 5 8 (mkMatrix 8 8 (bits Z8))) b) /\
  exists alpha,
    (a <- compose (mkCPM 5 8 (mkMatrix 8 8 (bits Z8)))
                  (mkCPM 5 8 (mkMatrix 8 8 (bits Z8))) ;;
     compose a (mkCPM 5 8 (mkMatrix 8 8 (bits Z8)))) = Ok alpha.
Proof.
  apply (compose_assoc (mkCPM 5 8 (mkMatrix 8 8 (bits Z8)))
                       (mkCPM 5 8 (mkMatrix 8 8 (bits Z8)))
                       (mkCPM 5 8 (mkMatrix 8 8 (bits Z8))));
    try (apply validb_valid; reflexivity); reflexivity.
Defined.

Lemma madd_vzero_l (c r : nat) (X : list vector) :
  length X = r -> rect c X -> madd (repeat (vzero c) r) X = X.
Proof. intros <- H. now apply madd_zero_l. Qed.

Lemma madd_vzero_r (c r : nat) (X : list vector) :
  length X = r -> rect c X -> madd X (repeat (vzero c) r) = X.
Proof. intros Hl H. rewrite madd_comm. now apply madd_vzero_l. Qed.

Lemma rect_zero (c r : nat) : rect c (repeat (vzero c) r).
Proof.
  apply Forall_forall. intros v Hv. apply repeat_spec in Hv. subst v.
  apply vzero_length.
Qed.

Lemma identity_cpm_valid (m : Z) (n : nat) :
  (1 <= m)%Z -> valid (identity_cpm m n) /\ is_identity (identity_cpm m n) = true.
Proof.
  intros Hm. split.
  - apply valid_mk; auto using rect_zero, repeat_length.
  - apply is_zero_repeat.
Qed.

(** The CPM with the zero folding matrix is neutral for composition, on
    both sides. *)
Theorem compose_identity_neutral (theta : CPM) :
  valid theta ->
  compose theta (identity_cpm (nrows theta) (ncols theta)) = Ok theta /\
  compose (identity_cpm (nrows theta) (ncols theta)) theta = Ok theta.
Proof.
  intros Hv.
  destruct (valid_inv theta Hv) as [Zr (Ht & Hm & HZl & HZr)].
  unfold nrows, ncols, identity_cpm, zero_matrix.
  set (m := _nrows theta) in *. set (n := _ncols theta) in *.
  rewrite Ht. clear Ht.
  pose proof (identity_rows_length n) as HIl.
  pose proof (rect_identity n) as HIr.
  assert (HzI : madd (repeat (vzero n) n) (identity_rows n) = identity_rows n).
  { now apply madd_vzero_l. }
  assert (HZ' : rect n (madd Zr (identity_rows n))) by now apply rect_madd.
  rewrite !compose_mk by assumption. unfold compose_rows.
  destruct (Z.even m).
  - split; repeat f_equal.
    + now apply madd_vzero_r.
    + now apply madd_vzero_l.
  - rewrite HzI. split; repeat f_equal.
    + rewrite mmul_identity_r by assumption.
      apply (madd_cancel_r n); auto; congruence.
    + rewrite mmul_identity_l
        by (auto; rewrite madd_length; congruence).
      apply (madd_cancel_r n); auto; congruence.
Qed.

Lemma compose_identity_neutral_witness :
  compose (mkCPM 5 8 (mkMatrix 8 8 (bits Z8)))
          (identity_cpm (nrows (mkCPM 5 8 (mkMatrix 8 8 (bits Z8))))
                        (ncols (mkCPM 5 8 (mkMatrix 8 8 (bits Z8))))) =
    Ok (mkCPM 5 8 (mkMatrix 8 8 (bits Z8))) /\
  compose (identity_cpm (nrows (mkCPM 5 8 (mkMatrix 8 8 (bits Z8))))
                        (ncols (mkCPM 5 8 (mkMatrix 8 8 (bits Z8)))))
          (mkCPM 5 8 (mkMatrix 8 8 (bits Z8))) =
    Ok (mkCPM 5 8 (mkMatrix 8 8 (bits Z8))).
Proof.
  apply (compose_identity_neutral (mkCPM 5 8 (mkMatrix 8 8 (bits Z8)))).
  apply validb_valid. reflexivity.
Defined.

End CompositionFacts.

(** * Inverses and involutions *)

Section InverseClaims.

Import GF2 Cypm.

(** A square matrix with a right inverse is inverted by the elimination. *)
Lemma right_inverse_invertible (n : nat) (M M' : list vector) :
  length M = n -> rect n M -> length M' = n -> rect n M' ->
  mmul n M M' = identity_rows n ->
  exists N, inverse_rows n M = Some N.
Proof.
  intros Hl Hr Hl' Hr' HMM'.
  destruct (inverse_rows_complete n M' M Hl' Hr' Hr HMM') as [N' HN'].
  destruct (inverse_rows_sound n M' N' Hl' Hr' HN') as (HNl & HNr & HNM & HMN).
  assert (HM : M = N') by now apply (inverse_rows_unique n M' M N').
  apply (inverse_rows_complete n M M'); auto. now rewrite HM.
Qed.

Lemma associated_rows_shape (n : nat) (Zr : list vector) :
  length Zr = n -> rect n Zr ->
  length (madd Zr (identity_rows n)) = n /\
  rect n (madd Zr (identity_rows n)).
Proof.
  intros Hl Hr. split.
  - rewrite madd_length; rewrite ?identity_rows_length; congruence.
  - apply rect_madd; auto using rect_identity.
Qed.

(** The inverse of an invertible CPM, by its folding matrix: it composes
    to the zero matrix with the folding matrix of the CPM, on both sides. *)
Lemma inverse_mk_spec (m : Z) (n : nat) (Zr : list vector) :
  (1 <= m)%Z -> length Zr = n -> rect n Zr ->
  is_invertible (mkCPM m n (mkMatrix n n Zr)) = Ok true ->
  exists Zi,
    inverse (mkCPM m n (mkMatrix n n Zr)) = Ok (mkCPM m n (mkMatrix n n Zi)) /\
    length Zi = n /\ rect n Zi /\
    compose_rows m n Zr Zi = repeat (vzero n) n /\
    compose_rows m n Zi Zr = repeat (vzero n) n /\
    is_invertible (mkCPM m n (mkMatrix n n Zi)) = Ok true.
Proof.
  intros Hm HZl HZr. rewrite !is_invertible_mk. unfold compose_rows.
  pose proof (identity_rows_length n) as HIl.
  pose proof (rect_identity n) as HIr.
  destruct (associated_rows_shape n Zr HZl HZr) as [HMl HMr].
  intros Hinv. destruct (Z.even m) eqn:He.
  - exists Zr. rewrite inverse_mk_even, is_invertible_mk, He by assumption.
    rewrite (madd_self n), HZl by assumption. auto 10.
  - destruct (inverse_rows n (madd Zr (identity_rows n))) as [N|] eqn:HN;
      [|discriminate].
    destruct (inverse_rows_sound n _ N HMl HMr HN)
      as (HNl & HNr & HNM & HMN).
    pose proof (inverse_rows_involutive n _ N HMl HMr HN) as HN'.
    assert (Hc : madd (madd N (identity_rows n)) (identity_rows n) = N)
      by (apply (madd_cancel_r n); auto; congruence).
    exists (madd N (identity_rows n)).
    rewrite (inverse_mk_odd m n Zr N), is_invertible_mk, He by assumption.
    rewrite Hc, HN', HNM, HMN, madd_identity_self.
    repeat split; auto.
    + rewrite madd_length; congruence.
    + now apply rect_madd.
Qed.

(** [inverse()] is defined exactly when [is_invertible()] holds; the
    inverse is a CPM of the same [(m, n)], is invertible, and is an inverse
    on the left as well. *)
Theorem inverse_result (theta : CPM) :
  valid theta ->
  (exists b, is_invertible theta = Ok b) /\
  (is_invertible theta = Ok true ->
   exists theta_inv alpha,
     inverse theta = Ok theta_inv /\ valid theta_inv /\
     nrows theta_inv = nrows theta /\ ncols theta_inv = ncols theta /\
     is_invertible theta_inv = Ok true /\
     compose theta_inv theta = Ok alpha /\ is_identity alpha = true) /\
  (is_invertible theta = Ok false -> inverse theta = Raise NotInvertible).
Proof.
  intros Hv.
  destruct (valid_inv theta Hv) as [Zr (Ht & Hm & HZl & HZr)].
  unfold nrows, ncols.
  set (m := _nrows theta) in *. set (n := _ncols theta) in *.
  rewrite Ht. clear Ht.
  split; [|split].
  - rewrite is_invertible_mk. destruct (Z.even m); [eauto|].
    destruct (inverse_rows n (madd Zr (identity_rows n))); eauto.
  - intros Hinv.
    destruct (inverse_mk_spec m n Zr Hm HZl HZr Hinv)
      as (Zi & Hi & HZil & HZir & _ & Hleft & Hinv').
    do 2 eexists. split; [exact Hi|]. split; [now apply valid_mk|].
    rewrite compose_mk, Hleft by assumption.
    repeat split; auto. apply is_zero_repeat.
  - apply inverse_not_invertible.
Qed.

Lemma inverse_result_witness :
  (exists b, is_invertible (mkCPM 5 8 (mkMatrix 8 8 (bits Z8))) = Ok b) /\
  (is_invertible (mkCPM 5 8 (mkMatrix 8 8 (bits Z8))) = Ok true ->
   exists theta_inv alpha,
     inverse (mkCPM 5 8 (mkMatrix 8 8 (bits Z8))) = Ok theta_inv /\
     valid theta_inv /\
     nrows theta_inv = nrows (mkCPM 5 8 (mkMatrix 8 8 (bits Z8))) /\
     ncols theta_inv = ncols (mkCPM 5 8 (mkMatrix 8 8 (bits Z8))) /\
     is_invertible theta_inv = Ok true /\
     compose theta_inv (mkCPM 5 8 (mkMatrix 8 8 (bits Z8))) = Ok alpha /\
     is_identity alpha = true) /\
  (is_invertible (mkCPM 5 8 (mkMatrix 8 8 (bits Z8))) = Ok false ->
   inverse (mkCPM 5 8 (mkMatrix 8 8 (bits Z8))) = Raise NotInvertible).
Proof.
  apply (inverse_result (mkCPM 5 8 (mkMatrix 8 8 (bits Z8)))).
  apply validb_valid. reflexivity.
Defined.

(** A CPM is invertible exactly when some CPM of the same [(m, n)]
    composes with it to the identity CPM. *)
Theorem is_invertible_iff (theta : CPM) :
  valid theta ->
  is_invertible theta = Ok true <->
  exists theta' alpha,
    valid theta' /\ nrows theta' = nrows theta /\
    ncols theta' = ncols theta /\
    compose theta theta' = Ok alpha /\ is_identity alpha = true.
Proof.
  intros Hv. split.
  - intros Hinv.
    destruct (valid_inv theta Hv) as [Zr (Ht & Hm & HZl & HZr)].
    unfold nrows, ncols.
    set (m := _nrows theta) in *. set (n := _ncols theta) in *.
    rewrite Ht in Hinv |- *. clear Ht.
    destruct (inverse_mk_spec m n Zr Hm HZl HZr Hinv)
      as (Zi & _ & HZil & HZir & Hright & _).
    exists (mkCPM m n (mkMatrix n n Zi)). eexists.
    split; [now apply valid_mk|].
    rewrite compose_mk, Hright by assumption.
    repeat split. apply is_zero_repeat.
  - intros (theta' & alpha & Hv' & Hm' & Hn' & Hc & Hid).
    destruct (valid_inv theta Hv) as [Zr (Ht & Hm & HZl & HZr)].
    destruct (valid_inv theta' Hv') as [Zr' (Ht' & _ & HZl' & HZr')].
    unfold nrows, ncols in *. rewrite Hm', Hn' in *.
    set (m := _nrows theta) in *. set (n := _ncols theta) in *.
    rewrite Ht in *. rewrite Ht' in Hc. clear Ht Ht'.
    rewrite is_invertible_mk. destruct (Z.even m) eqn:He; auto.
    rewrite compose_odd in Hc by assumption.
    inversion Hc; subst alpha; clear Hc.
    unfold is_identity, parity_folding_matrix in Hid. cbn [_Z] in Hid.
    destruct (associated_rows_shape n Zr HZl HZr) as [HMl HMr].
    destruct (associated_rows_shape n Zr' HZl' HZr') as [HMl' HMr'].
    apply is_zero_associated in Hid;
      [|now rewrite mmul_length|now apply rect_mmul].
    destruct (right_inverse_invertible n _ _ HMl HMr HMl' HMr' Hid) as [N HN].
    now rewrite HN.
Qed.

Lemma is_invertible_iff_witness :
  is_invertible (mkCPM 5 8 (mkMatrix 8 8 (bits Z8))) = Ok true <->
  exists theta' alpha,
    valid theta' /\
    nrows theta' = nrows (mkCPM 5 8 (mkMatrix 8 8 (bits Z8))) /\
    ncols theta' = ncols (mkCPM 5 8 (mkMatrix 8 8 (bits Z8))) /\
    compose (mkCPM 5 8 (mkMatrix 8 8 (bits Z8))) theta' = Ok alpha /\
    is_identity alpha = true.
Proof.
  apply (is_invertible_iff (mkCPM 5 8 (mkMatrix 8 8 (bits Z8)))).
  apply validb_valid. reflexivity.
Defined.

(** [is_involution()] tells whether the CPM composed with itself is the
    identity CPM; for even [m], where it answers [True] without composing,
    the composition is the identity CPM indeed. *)
Theorem is_involution_spec (theta : CPM) :
  valid theta ->
  exists alpha,
    compose theta theta = Ok alpha /\
    is_involution theta = Ok (is_identity alpha).
Proof.
  intros Hv.
  destruct (valid_inv theta Hv) as [Zr (Ht & Hm & HZl & HZr)].
  set (m := _nrows theta) in *. set (n := _ncols theta) in *.
  rewrite Ht. clear Ht. unfold is_involution. unfold nrows at 1.
  cbn [_nrows]. destruct (Z.even m) eqn:He.
  - rewrite compose_even by assumption. eexists. split; [reflexivity|].
    unfold is_identity, parity_folding_matrix. cbn [_Z].
    rewrite (madd_self n), HZl by assumption. now rewrite is_zero_repeat.
  - rewrite compose_odd by assumption. eexists. split; reflexivity.
Qed.

Lemma is_involution_spec_witness :
  exists alpha,
    compose (mkCPM 5 8 (mkMatrix 8 8 (bits Z8)))
            (mkCPM 5 8 (mkMatrix 8 8 (bits Z8))) = Ok alpha /\
    is_involution (mkCPM 5 8 (mkMatrix 8 8 (bits Z8))) =
    Ok (is_identity alpha).
Proof.
  apply (is_involution_spec (mkCPM 5 8 (mkMatrix 8 8 (bits Z8)))).
  apply validb_valid. reflexivity.
Defined.

End InverseClaims.

(** * The action on state matrices *)

Section ActionClaims.

Import GF2 Cypm.

Lemma vecmat_zero_r (c k : nat) (v : vector) :
  vecmat c v (repeat (vzero c) k) = vzero c.
Proof.
  revert k; induction v as [|b v IH]; intros [|k]; simpl; auto.
  rewrite IH. destruct b; rewrite <- (vzero_length c) at 1;
    apply vadd_zero_l.
Qed.

Lemma matrix_eta (A : matrix) :
  mkMatrix (GF2.nrows A) (GF2.ncols A) (rows A) = A.
Proof. now destruct A. Qed.

(** The action is defined exactly on the matrices with [n] columns and at
    least one row (or none when [n = 0]); the result has the shape of
    [A].  Else the product or the sum raises [TypeError]. *)
Theorem call_defined_iff (theta : CPM) (A : matrix) :
  valid theta -> wf A ->
  (GF2.ncols A = ncols theta /\ (1 <= GF2.nrows A \/ ncols theta = 0) ->
   exists B, call theta A = Ok B /\ wf B /\
             GF2.nrows B = GF2.nrows A /\ GF2.ncols B = GF2.ncols A) /\
  (~ (GF2.ncols A = ncols theta /\ (1 <= GF2.nrows A \/ ncols theta = 0)) ->
   exists msg, call theta A = Raise (TypeError msg)).
Proof.
  intros Hv Hwf.
  destruct (valid_inv theta Hv) as [Zr (Ht & Hm & HZl & HZr)].
  unfold ncols. set (m := _nrows theta) in *. set (n := _ncols theta) in *.
  rewrite Ht. clear Ht.
  destruct (Nat.eq_dec (GF2.nrows A) 0) as [Hz|Hnz].
  - (* no row *)
    destruct A as [r c Ar]. pose proof Hwf as [Hl _]. simpl in *. subst r.
    destruct Ar; [|discriminate].
    unfold call, expanded_effect, expanded_column_parity, column_parity,
      parity_folding_matrix, mul, add. simpl.
    destruct n as [|n]; simpl.
    + destruct c as [|c]; simpl; split.
      * intros _. eexists. repeat split; constructor.
      * intros H. exfalso. apply H. auto.
      * intros [H _]. discriminate.
      * intros _. eexists. reflexivity.
    + split.
      * intros [_ [H|H]]; [lia|discriminate].
      * intros _. eexists. reflexivity.
  - assert (Hr : 1 <= GF2.nrows A) by lia.
    destruct (column_parity_vec A Hwf Hr) as [p [Hp Hlen]].
    destruct (Nat.eq_dec (GF2.ncols A) n) as [Hc|Hc].
    + split; [|intros H; exfalso; apply H; auto].
      intros _. rewrite (call_rows m n Zr A p Hwf Hc Hp).
      eexists. split; [reflexivity|]. destruct Hwf as [Hl Hrect].
      repeat split; simpl; auto.
      * now rewrite length_map.
      * apply Forall_map. eapply Forall_impl; [|exact Hrect].
        intros a Ha. simpl in Ha.
        rewrite vadd_length;
          [congruence|rewrite vecmat_length by assumption; congruence].
    + split; [intros [H _]; contradiction|]. intros _.
      unfold call, expanded_effect, expanded_column_parity,
        parity_folding_matrix, mul. rewrite Hp. simpl.
      rewrite Hlen. apply Nat.eqb_neq in Hc. rewrite Hc.
      eexists. reflexivity.
Qed.

Lemma call_defined_iff_witness :
  (GF2.ncols A58 = ncols (mkCPM 5 8 (mkMatrix 8 8 (bits Z8))) /\
   (1 <= GF2.nrows A58 \/ ncols (mkCPM 5 8 (mkMatrix 8 8 (bits Z8))) = 0) ->
   exists B, call (mkCPM 5 8 (mkMatrix 8 8 (bits Z8))) A58 = Ok B /\ wf B /\
             GF2.nrows B = GF2.nrows A58 /\ GF2.ncols B = GF2.ncols A58) /\
  (~ (GF2.ncols A58 = ncols (mkCPM 5 8 (mkMatrix 8 8 (bits Z8))) /\
      (1 <= GF2.nrows A58 \/
       ncols (mkCPM 5 8 (mkMatrix 8 8 (bits Z8))) = 0)) ->
   exists msg,
     call (mkCPM 5 8 (mkMatrix 8 8 (bits Z8))) A58 = Raise (TypeError msg)).
Proof.
  apply (call_defined_iff (mkCPM 5 8 (mkMatrix 8 8 (bits Z8))) A58).
  - apply validb_valid. reflexivity.
  - apply wfb_wf. reflexivity.
Defined.

Lemma call_zero_rows (m : Z) (n : nat) (A : matrix) :
  wf A -> GF2.ncols A = n -> 1 <= GF2.nrows A ->
  call (mkCPM m n (mkMatrix n n (repeat (vzero n) n))) A = Ok A.
Proof.
  intros Hwf Hc Hr.
  destruct (column_parity_vec A Hwf Hr) as [p [Hp Hlen]].
  rewrite (call_rows m n _ A p Hwf Hc Hp), vecmat_zero_r.
  rewrite <- (matrix_eta A) at 3. rewrite Hc. f_equal. f_equal.
  rewrite <- (map_id (rows A)) at 2. apply map_ext_in.
  intros a Ha. destruct Hwf as [_ Hrect].
  eapply Forall_forall in Hrect; eauto. simpl in Hrect.
  apply vadd_vzero_r. congruence.
Qed.

(** The identity CPM leaves every matrix it applies to unchanged. *)
Theorem call_identity (theta : CPM) (A : matrix) :
  valid theta -> is_identity theta = true ->
  wf A -> GF2.ncols A = ncols theta -> 1 <= GF2.nrows A ->
  call theta A = Ok A.
Proof.
  intros Hv Hid Hwf Hc Hr.
  destruct (valid_inv theta Hv) as [Zr (Ht & Hm & HZl & HZr)].
  unfold ncols in *. set (m := _nrows theta) in *.
  set (n := _ncols theta) in *.
  rewrite Ht in *. clear Ht.
  unfold is_identity, is_zero, parity_folding_matrix in Hid. simpl in Hid.
  apply (is_zero_rows n) in Hid; auto.
  rewrite Hid, HZl. now apply call_zero_rows.
Qed.

Lemma call_identity_witness :
  call (identity_cpm 5 8) A58 = Ok A58.
Proof.
  apply (call_identity (identity_cpm 5 8) A58).
  - apply validb_valid. reflexivity.
  - reflexivity.
  - apply wfb_wf. reflexivity.
  - reflexivity.
  - simpl. lia.
Defined.

(** On a matrix whose number of rows has the parity of [m], the CPM with
    the composed folding matrix acts as the two CPMs in turn. *)
Lemma call_compose_rows (m : Z) (n : nat) (Zr Zr' : list vector)
    (A : matrix) :
  length Zr = n -> rect n Zr -> length Zr' = n -> rect n Zr' ->
  wf A -> GF2.ncols A = n -> 1 <= GF2.nrows A ->
  Nat.even (GF2.nrows A) = Z.even m ->
  exists B,
    call (mkCPM m n (mkMatrix n n Zr)) A = Ok B /\ wf B /\
    GF2.nrows B = GF2.nrows A /\ GF2.ncols B = n /\
    call (mkCPM m n (mkMatrix n n (compose_rows m n Zr Zr'))) A =
    call (mkCPM m n (mkMatrix n n Zr')) B.
Proof.
  intros HZl HZr HZl' HZr' Hwf Hc Hr Hpar.
  destruct (column_parity_vec A Hwf Hr) as [p [Hp Hlen]].
  rewrite Hc in Hlen.
  assert (He : length (vecmat n p Zr) = n) by now apply vecmat_length.
  set (e := vecmat n p Zr) in *.
  set (B := mkMatrix (GF2.nrows A) n (map (fun a => vadd a e) (rows A))).
  assert (HB : wf B).
  { destruct Hwf as [Hl Hrect]. split; simpl.
    - now rewrite length_map.
    - apply Forall_map. eapply Forall_impl; [|exact Hrect].
      intros a Ha. simpl in Ha. rewrite vadd_length; congruence. }
  assert (HpB : column_parity B =
                Vec (if Nat.even (GF2.nrows A) then p else vadd p e)).
  { unfold B. rewrite (column_parity_call _ n A p e) by auto.
    destruct Hwf as [Hl _]. now rewrite Hl. }
  exists B. rewrite (call_rows m n Zr A p Hwf Hc Hp). fold e. fold B.
  split; [reflexivity|]. split; [exact HB|].
  split; [reflexivity|]. split; [reflexivity|].
  rewrite (call_rows m n Zr' B _ HB eq_refl HpB).
  rewrite (call_rows m n _ A p Hwf Hc Hp).
  unfold B. simpl. rewrite map_map. f_equal. f_equal.
  apply map_ext. intros a. rewrite vadd_assoc. f_equal.
  unfold compose_rows. rewrite Hpar. destruct (Z.even m).
  - apply vecmat_madd_r; auto; congruence.
  - now apply vecmat_compose_odd.
Qed.

(** Applying an invertible CPM and then its inverse gives the matrix back,
    for a matrix whose number of rows has the parity of [m]. *)
Theorem call_inverse (theta : CPM) (A : matrix) :
  valid theta -> is_invertible theta = Ok true ->
  wf A -> GF2.ncols A = ncols theta -> 1 <= GF2.nrows A ->
  Nat.even (GF2.nrows A) = Z.even (nrows theta) ->
  exists theta_inv,
    inverse theta = Ok theta_inv /\
    (B <- call theta A ;; call theta_inv B) = Ok A.
Proof.
  intros Hv Hinv Hwf Hc Hr Hpar.
  destruct (valid_inv theta Hv) as [Zr (Ht & Hm & HZl & HZr)].
  unfold nrows, ncols in *.
  set (m := _nrows theta) in *. set (n := _ncols theta) in *.
  rewrite Ht in Hinv |- *. clear Ht.
  destruct (inverse_mk_spec m n Zr Hm HZl HZr Hinv)
    as (Zi & Hi & HZil & HZir & Hright & _).
  eexists. split; [exact Hi|].
  destruct (call_compose_rows m n Zr Zi A) as (B & HB & _ & _ & _ & Heq);
    auto.
  rewrite HB. cbn [bind]. rewrite <- Heq, Hright.
  now apply call_zero_rows.
Qed.

Lemma call_inverse_witness :
  exists theta_inv,
    inverse (mkCPM 5 8 (mkMatrix 8 8 (bits Z8))) = Ok theta_inv /\
    (B <- call (mkCPM 5 8 (mkMatrix 8 8 (bits Z8))) A58 ;;
     call theta_inv B) = Ok A58.
Proof.
  apply (call_inverse (mkCPM 5 8 (mkMatrix 8 8 (bits Z8))) A58).
  - apply validb_valid. reflexivity.
  - reflexivity.
  - apply wfb_wf. reflexivity.
  - reflexivity.
  - simpl. lia.
  - reflexivity.
Defined.

Lemma fold_left_vadd_madd (rsA rsB : list vector) (a b : vector) :
  length rsA = length rsB ->
  fold_left vadd (madd rsA rsB) (vadd a b) =
  vadd (fold_left vadd rsA a) (fold_left vadd rsB b).
Proof.
  revert rsB a b; induction rsA as [|x rsA IH]; intros [|y rsB] a b H;
    simpl in *; try discriminate; auto.
  rewrite vadd_swap. apply IH. lia.
Qed.

Lemma map_vadd_madd (rA rB : list vector) (eA eB : vector) :
  map (fun s => vadd s (vadd eA eB)) (madd rA rB) =
  madd (map (fun a => vadd a eA) rA) (map (fun b => vadd b eB) rB).
Proof.
  revert rB; induction rA as [|a rA IH]; intros [|b rB]; simpl; auto.
  now rewrite vadd_swap, IH.
Qed.

(** The action is linear: it maps a sum of matrices to the sum of their
    images. *)
Theorem call_linear (theta : CPM) (A B : matrix) :
  valid theta -> wf A -> wf B ->
  GF2.nrows A = GF2.nrows B -> GF2.ncols A = GF2.ncols B ->
  GF2.ncols A = ncols theta -> 1 <= GF2.nrows A ->
  (S <- add A B ;; call theta S) =
  (A' <- call theta A ;; B' <- call theta B ;; add A' B') /\
  exists C, (S <- add A B ;; call theta S) = Ok C.
Proof.
  intros Hv HwfA HwfB Hrows Hcols Hc Hr.
  destruct (valid_inv theta Hv) as [Zr (Ht & Hm & HZl & HZr)].
  unfold ncols in *. set (m := _nrows theta) in *.
  set (n := _ncols theta) in *. rewrite Ht. clear Ht.
  destruct A as [r c rA]. destruct B as [r' c' rB]. simpl in *.
  subst r' c' c.
  pose proof HwfA as [HlA HrA]. pose proof HwfB as [HlB HrB]. simpl in *.
  destruct rA as [|a0 rA]; [simpl in HlA; lia|].
  destruct rB as [|b0 rB]; [simpl in HlB; lia|].
  apply rect_cons in HrA as [Ha0 HrA]. apply rect_cons in HrB as [Hb0 HrB].
  assert (Hlen : length rA = length rB) by (simpl in *; lia).
  set (pA := fold_left vadd rA a0). set (pB := fold_left vadd rB b0).
  assert (HpA : length pA = n) by now apply fold_left_vadd_length.
  assert (HpB : length pB = n) by now apply fold_left_vadd_length.
  unfold add. simpl. rewrite !Nat.eqb_refl. cbn [andb bind].
  assert (HwfS : wf (mkMatrix r n (vadd a0 b0 :: madd rA rB))).
  { split; simpl.
    - rewrite madd_length by assumption. exact HlA.
    - constructor; [rewrite vadd_length; congruence|now apply rect_madd]. }
  rewrite (call_rows m n Zr _ (vadd pA pB) HwfS eq_refl).
  2:{ unfold column_parity. simpl. f_equal. now apply fold_left_vadd_madd. }
  rewrite (call_rows m n Zr _ pA HwfA eq_refl eq_refl).
  rewrite (call_rows m n Zr _ pB HwfB eq_refl eq_refl).
  cbn [bind GF2.nrows GF2.ncols rows]. rewrite !Nat.eqb_refl. cbn [andb].
  rewrite vecmat_vadd_l by (auto; congruence).
  rewrite <- map_vadd_madd.
  split; [reflexivity|eexists; reflexivity].
Qed.

Lemma call_linear_witness :
  (S <- add A58 A58 ;; call (mkCPM 5 8 (mkMatrix 8 8 (bits Z8))) S) =
  (A' <- call (mkCPM 5 8 (mkMatrix 8 8 (bits Z8))) A58 ;;
   B' <- call (mkCPM 5 8 (mkMatrix 8 8 (bits Z8))) A58 ;; add A' B') /\
  exists C,
    (S <- add A58 A58 ;; call (mkCPM 5 8 (mkMatrix 8 8 (bits Z8))) S) = Ok C.
Proof.
  apply (call_linear (mkCPM 5 8 (mkMatrix 8 8 (bits Z8))) A58 A58);
    try (apply wfb_wf; reflexivity); try reflexivity.
  - apply validb_valid. reflexivity.
  - simpl. lia.
Defined.

(** The column parity after one application: unchanged when [A] has an
    even number of rows, multiplied by the associated matrix when it has an
    odd number of rows. *)
Theorem column_parity_after_call (theta : CPM) (A : matrix) (p : vector) :
  valid theta -> wf A -> GF2.ncols A = ncols theta ->
  column_parity A = Vec p ->
  exists B M,
    call theta A = Ok B /\ associated_matrix theta = Ok M /\
    (Nat.even (GF2.nrows A) = true -> column_parity B = Vec p) /\
    (Nat.even (GF2.nrows A) = false ->
     exists p', vec_mul p M = Ok p' /\ column_parity B = Vec p').
Proof.
  intros Hv Hwf Hc Hp.
  destruct (valid_inv theta Hv) as [Zr (Ht & Hm & HZl & HZr)].
  unfold ncols in *. set (m := _nrows theta) in *.
  set (n := _ncols theta) in *. rewrite Ht. clear Ht.
  assert (Hr : 1 <= GF2.nrows A).
  { destruct Hwf as [Hl _]. unfold column_parity in Hp.
    destruct (rows A); [discriminate|]. simpl in Hl. lia. }
  destruct (column_parity_vec A Hwf Hr) as [p0 [Hp0 Hlen]].
  rewrite Hp in Hp0. inversion Hp0; subst p0. rewrite Hc in Hlen.
  assert (He : length (vecmat n p Zr) = n) by now apply vecmat_length.
  rewrite (call_rows m n Zr A p Hwf Hc Hp), associated_matrix_mk.
  do 2 eexists. split; [reflexivity|]. split; [reflexivity|].
  rewrite (column_parity_call _ n A p _ Hwf Hc He Hp).
  destruct Hwf as [Hl _]. rewrite Hl.
  split; intros Hev; rewrite Hev; auto.
  eexists. split; [|reflexivity].
  unfold vec_mul. simpl. rewrite Hlen, Nat.eqb_refl. f_equal.
  rewrite vecmat_madd_r
    by (auto using rect_identity; rewrite identity_rows_length; congruence).
  rewrite vecmat_identity_r by assumption. apply vadd_comm.
Qed.

Lemma column_parity_after_call_witness :
  exists B M,
    call (mkCPM 5 8 (mkMatrix 8 8 (bits Z8))) A58 = Ok B /\
    associated_matrix (mkCPM 5 8 (mkMatrix 8 8 (bits Z8))) = Ok M /\
    (Nat.even (GF2.nrows A58) = true ->
     column_parity B =
     Vec [true; true; false; false; false; true; false; false]) /\
    (Nat.even (GF2.nrows A58) = false ->
     exists p',
       vec_mul [true; true; false; false; false; true; false; false] M =
         Ok p' /\
       column_parity B = Vec p').
Proof.
  apply (column_parity_after_call (mkCPM 5 8 (mkMatrix 8 8 (bits Z8))) A58).
  - apply validb_valid. reflexivity.
  - apply wfb_wf. reflexivity.
  - reflexivity.
  - reflexivity.
Defined.

End ActionClaims.

(** * The meaning of the column lists *)

Section ColumnSemantics.

Import GF2 Cypm.

Lemma fold_left_xorb_count (l : list bool) (b : bool) :
  fold_left xorb l b = xorb b (Nat.odd (count_ones l)).
Proof.
  unfold count_ones.
  revert b; induction l as [|x l IH]; intros b; simpl.
  - now rewrite xorb_false_r.
  - rewrite IH. destruct x; simpl.
    + rewrite Nat.odd_succ, <- Nat.negb_odd.
      destruct b, (Nat.odd (count_occ bool_dec l true)); reflexivity.
    + now rewrite xorb_false_r.
Qed.

Lemma nth_fold_left_vadd (c j : nat) (rs : list vector) (r0 : vector) :
  rect c rs -> length r0 = c ->
  nth j (fold_left vadd rs r0) false =
  fold_left xorb (column j rs) (nth j r0 false).
Proof.
  revert r0; induction rs as [|s rs IH]; intros r0 Hrs Hr0; simpl; auto.
  apply rect_cons in Hrs as [Hs Hrs].
  rewrite IH by (auto; rewrite vadd_length; congruence).
  now rewrite nth_vadd by congruence.
Qed.

(** Entry [j] of the column parity is the parity of the number of ones of
    column [j]. *)
Lemma column_parity_entry (A : matrix) (p : vector) (j : nat) :
  wf A -> column_parity A = Vec p ->
  nth j p false = Nat.odd (count_ones (column j (rows A))).
Proof.
  intros [_ Hr] Hp. unfold column_parity in Hp.
  destruct (rows A) as [|r0 rs]; [discriminate|].
  inversion Hp; subst p. apply rect_cons in Hr as [Hr0 Hrs].
  rewrite (nth_fold_left_vadd (GF2.ncols A)) by assumption.
  rewrite fold_left_xorb_count. unfold count_ones, column. simpl.
  destruct (nth j r0 false); simpl.
  - rewrite Nat.odd_succ, <- Nat.negb_odd.
    now destruct (Nat.odd _).
  - reflexivity.
Qed.

(** [odd_columns(A)] lists the columns of [A] with an odd number of ones,
    [even_columns(A)] those with an even number of ones. *)
Theorem odd_even_columns_spec (A : matrix) :
  wf A -> 1 <= GF2.nrows A ->
  exists odd even,
    odd_columns A = Ok odd /\ even_columns A = Ok even /\
    (forall j, In j odd <->
       j < GF2.ncols A /\ Nat.odd (count_ones (column j (rows A))) = true) /\
    (forall j, In j even <->
       j < GF2.ncols A /\ Nat.even (count_ones (column j (rows A))) = true).
Proof.
  intros Hwf Hn.
  destruct (column_parity_vec A Hwf Hn) as [p [Hp Hlen]].
  assert (Hodd : odd_columns A = Ok (nonzero_positions p)).
  { unfold odd_columns. now rewrite Hp. }
  assert (Hin : forall j, In j (nonzero_positions p) <->
            j < GF2.ncols A /\
            Nat.odd (count_ones (column j (rows A))) = true).
  { intros j. rewrite nonzero_positions_filter, filter_In, in_seq, Hlen.
    rewrite (column_parity_entry A p j Hwf Hp). simpl. intuition lia. }
  exists (nonzero_positions p). eexists.
  split; [exact Hodd|]. split.
  - unfold even_columns. apply (even_columns_loop_filter A _ _ Hodd).
  - split; [exact Hin|]. intros j.
    rewrite filter_In, in_seq, negb_true_iff. simpl.
    rewrite <- Nat.negb_odd, negb_true_iff.
    split.
    + intros [Hj Hex]. split; [lia|].
      destruct (Nat.odd (count_ones (column j (rows A)))) eqn:Ho; auto.
      assert (Hc : existsb (Nat.eqb j) (nonzero_positions p) = true).
      { apply existsb_eqb_in, Hin. split; [lia|auto]. }
      congruence.
    + intros [Hj Ho]. split; [lia|].
      destruct (existsb (Nat.eqb j) (nonzero_positions p)) eqn:Hex; auto.
      apply existsb_eqb_in, Hin in Hex. destruct Hex. congruence.
Qed.

Lemma odd_even_columns_spec_witness :
  exists odd even,
    odd_columns A58 = Ok odd /\ even_columns A58 = Ok even /\
    (forall j, In j odd <->
       j < GF2.ncols A58 /\
       Nat.odd (count_ones (column j (rows A58))) = true) /\
    (forall j, In j even <->
       j < GF2.ncols A58 /\
       Nat.even (count_ones (column j (rows A58))) = true).
Proof.
  apply (odd_even_columns_spec A58).
  - apply wfb_wf. reflexivity.
  - simpl. lia.
Defined.

Lemma unaffected_columns_loop_filter (theta : CPM) (A : matrix)
    (aff : positions) (idx : list nat) :
  affected_columns theta A = Ok aff ->
  unaffected_columns_loop theta A idx =
  Ok (filter (fun i => negb (position_mem i aff)) idx).
Proof.
  intros Haff. induction idx as [|i idx IH]; simpl; auto.
  rewrite Haff, IH. simpl. now destruct (position_mem i aff).
Qed.

(** [affected_columns(A)] and [unaffected_columns(A)] partition [[0, n)],
    and they are the columns the CPM changes and leaves alone: in every
    row, the CPM flips the entries of the affected columns and keeps those
    of the unaffected columns. *)
Theorem affected_columns_spec (theta : CPM) (A : matrix) :
  valid theta -> wf A -> GF2.ncols A = ncols theta -> 1 <= GF2.nrows A ->
  exists aff un B,
    affected_columns theta A = Ok (VecPositions aff) /\
    unaffected_columns theta A = Ok un /\
    call theta A = Ok B /\
    Permutation (aff ++ un) (seq 0 (ncols theta)) /\
    StronglySorted lt aff /\ StronglySorted lt un /\
    (forall i a b,
       nth_error (rows A) i = Some a -> nth_error (rows B) i = Some b ->
       (forall j, In j aff -> nth j b false = negb (nth j a false)) /\
       (forall j, In j un -> nth j b false = nth j a false)).
Proof.
  intros Hv Hwf Hc Hn.
  destruct (valid_inv theta Hv) as [Zr (Ht & _ & HZl & HZr)].
  destruct (column_parity_vec A Hwf Hn) as [p [Hp Hplen]].
  unfold ncols in *. rewrite Hc in Hplen.
  set (e := vecmat (_ncols theta) p Zr).
  assert (Hlen : length e = _ncols theta) by now apply vecmat_length.
  assert (Heff : effect theta A = Ok (EffectVec e)).
  { rewrite Ht. unfold effect, vec_mul, parity_folding_matrix.
    rewrite Hp. simpl. now rewrite Hplen, Nat.eqb_refl. }
  assert (Hcall : call theta A =
                  Ok (mkMatrix (GF2.nrows A) (_ncols theta)
                        (map (fun a => vadd a e) (rows A)))).
  { rewrite Ht at 1. apply (call_rows _ _ Zr A p Hwf Hc Hp). }
  set (f := fun j => nth j e false).
  assert (Haff : affected_columns theta A =
                 Ok (VecPositions (filter f (seq 0 (ncols theta))))).
  { unfold affected_columns. rewrite Heff. cbn [bind].
    now rewrite nonzero_positions_filter, Hlen. }
  assert (Hun : unaffected_columns theta A =
                Ok (filter (fun j => negb (f j)) (seq 0 (ncols theta)))).
  { unfold unaffected_columns.
    rewrite (unaffected_columns_loop_filter theta A _ _ Haff).
    f_equal. apply filter_ext_in. intros j Hj. f_equal. simpl.
    apply eq_true_iff_eq. rewrite existsb_eqb_in, filter_In. tauto. }
  do 3 eexists.
  split; [exact Haff|]. split; [exact Hun|]. split; [exact Hcall|].
  split; [apply filter_partition_perm|].
  split; [apply filter_sorted, seq_sorted|].
  split; [apply filter_sorted, seq_sorted|].
  intros i a b Ha Hb. simpl in Hb. rewrite nth_error_map, Ha in Hb.
  inversion Hb; subst b; clear Hb.
  assert (Hla : length a = length e).
  { destruct Hwf as [_ Hrect]. apply nth_error_In in Ha.
    eapply Forall_forall in Hrect; eauto. simpl in Hrect. congruence. }
  split; intros j Hj; apply filter_In in Hj as [_ Hj]; unfold f in Hj;
    rewrite nth_vadd by assumption.
  - rewrite Hj. now destruct (nth j a false).
  - apply negb_true_iff in Hj. rewrite Hj. apply xorb_false_r.
Qed.

Lemma affected_columns_spec_witness :
  exists aff un B,
    affected_columns (mkCPM 5 8 (mkMatrix 8 8 (bits Z8))) A58 =
      Ok (VecPositions aff) /\
    unaffected_columns (mkCPM 5 8 (mkMatrix 8 8 (bits Z8))) A58 = Ok un /\
    call (mkCPM 5 8 (mkMatrix 8 8 (bits Z8))) A58 = Ok B /\
    Permutation (aff ++ un)
      (seq 0 (ncols (mkCPM 5 8 (mkMatrix 8 8 (bits Z8))))) /\
    StronglySorted lt aff /\ StronglySorted lt un /\
    (forall i a b,
       nth_error (rows A58) i = Some a -> nth_error (rows B) i = Some b ->
       (forall j, In j aff -> nth j b false = negb (nth j a false)) /\
       (forall j, In j un -> nth j b false = nth j a false)).
Proof.
  apply (affected_columns_spec (mkCPM 5 8 (mkMatrix 8 8 (bits Z8))) A58).
  - apply validb_valid. reflexivity.
  - apply wfb_wf. reflexivity.
  - reflexivity.
  - simpl. lia.
Defined.

End ColumnSemantics.

(** * Powers *)

Section PowerClaims.

Import GF2 Cypm.

Section PowerRows.

Variable m : Z.
Variable n : nat.
Variable Zr : list vector.
Hypothesis m_pos : (1 <= m)%Z.
Hypothesis Zr_length : length Zr = n.
Hypothesis Zr_rect : rect n Zr.

Lemma pow_rows_shape (k : nat) (X : list vector) :
  length X = n -> rect n X ->
  length (pow_rows m n Zr k X) = n /\ rect n (pow_rows m n Zr k X).
Proof.
  revert X; induction k as [|k IH]; intros X Hl Hr; simpl; auto.
  destruct (compose_rows_shape m n X Zr) as [Hl' Hr']; auto.
Qed.

Lemma pow_rows_snoc (k : nat) (X : list vector) :
  pow_rows m n Zr (S k) X = compose_rows m n (pow_rows m n Zr k X) Zr.
Proof.
  revert X; induction k as [|k IH]; intros X; [reflexivity|].
  change (pow_rows m n Zr (S (S k)) X)
    with (pow_rows m n Zr (S k) (compose_rows m n X Zr)).
  now rewrite IH.
Qed.

Lemma pow_loop_mk (k : nat) (X : list vector) :
  pow_loop (mkCPM m n (mkMatrix n n Zr)) k (mkCPM m n (mkMatrix n n X)) =
  Ok (mkCPM m n (mkMatrix n n (pow_rows m n Zr k X))).
Proof.
  revert X; induction k as [|k IH]; intros X; [reflexivity|].
  cbn [pow_loop]. rewrite compose_mk by assumption. cbn [bind].
  now rewrite IH.
Qed.

Lemma pow_mk (e : Z) :
  (1 <= e)%Z ->
  pow (mkCPM m n (mkMatrix n n Zr)) e =
  Ok (mkCPM m n (mkMatrix n n (pow_rows m n Zr (Z.to_nat (e - 1)) Zr))).
Proof.
  intros He. unfold pow.
  destruct (e <? 1)%Z eqn:E; [apply Z.ltb_lt in E; lia|].
  unfold nrows, parity_folding_matrix. cbn [_nrows _Z].
  rewrite new_square by assumption. cbn [bind]. apply pow_loop_mk.
Qed.

Lemma pow_rows_add (a b : nat) :
  pow_rows m n Zr (a + b + 1) Zr =
  compose_rows m n (pow_rows m n Zr a Zr) (pow_rows m n Zr b Zr).
Proof.
  induction b as [|b IH].
  - replace (a + 0 + 1) with (S a) by lia. now rewrite pow_rows_snoc.
  - replace (a + S b + 1) with (S (a + b + 1)) by lia.
    rewrite !pow_rows_snoc, IH.
    destruct (pow_rows_shape a Zr) as [Hal Har]; auto.
    destruct (pow_rows_shape b Zr) as [Hbl Hbr]; auto.
    now apply compose_rows_assoc.
Qed.

(** The power with exponent [k + 1] acts as [k + 1] applications. *)
Lemma call_pow_rows (k : nat) (A : matrix) :
  wf A -> GF2.ncols A = n -> 1 <= GF2.nrows A ->
  Nat.even (GF2.nrows A) = Z.even m ->
  exists B,
    call (mkCPM m n (mkMatrix n n (pow_rows m n Zr k Zr))) A = Ok B /\
    call_iter (mkCPM m n (mkMatrix n n Zr)) (S k) A = Ok B /\
    wf B /\ GF2.nrows B = GF2.nrows A /\ GF2.ncols B = n.
Proof.
  intros Hwf Hc Hr Hpar. induction k as [|k IH].
  - destruct (call_compose_rows m n Zr Zr A)
      as (B & HB & HwfB & HrB & HcB & _); auto.
    exists B. cbn [pow_rows call_iter bind]. auto.
  - destruct IH as (B & HB & Hit & HwfB & HrB & HcB).
    destruct (pow_rows_shape k Zr) as [Hl Hrect]; auto.
    destruct (call_compose_rows m n (pow_rows m n Zr k Zr) Zr A)
      as (B' & HB' & _ & _ & _ & Heq); auto.
    rewrite HB in HB'. inversion HB'; subst B'. clear HB'.
    assert (HrB' : 1 <= GF2.nrows B) by lia.
    assert (HparB : Nat.even (GF2.nrows B) = Z.even m) by now rewrite HrB.
    destruct (call_compose_rows m n Zr Zr B)
      as (C & HC & HwfC & HrC & HcC & _); auto.
    exists C. rewrite pow_rows_snoc, Heq.
    change (call_iter (mkCPM m n (mkMatrix n n Zr)) (S (S k)) A)
      with (X <- call_iter (mkCPM m n (mkMatrix n n Zr)) (S k) A ;;
            call (mkCPM m n (mkMatrix n n Zr)) X).
    rewrite Hit. cbn [bind].
    split; [exact HC|]. split; [exact HC|]. split; [exact HwfC|].
    split; congruence.
Qed.

End PowerRows.

(** [power(e)] is defined exactly for [e >= 1], where it gives a CPM of
    the same [(m, n)]; the first power is the CPM itself. *)
Theorem pow_result (theta : CPM) (e : Z) :
  valid theta ->
  ((1 <= e)%Z ->
   exists alpha, pow theta e = Ok alpha /\ valid alpha /\
                 nrows alpha = nrows theta /\ ncols alpha = ncols theta) /\
  ((e < 1)%Z -> pow theta e = Raise InvalidExponent) /\
  pow theta 1 = Ok theta.
Proof.
  intros Hv.
  destruct (valid_inv theta Hv) as [Zr (Ht & Hm & HZl & HZr)].
  unfold nrows, ncols.
  set (m := _nrows theta) in *. set (n := _ncols theta) in *.
  rewrite Ht. clear Ht. split; [|split].
  - intros He. rewrite pow_mk by assumption.
    destruct (pow_rows_shape m n Zr) with (k := Z.to_nat (e - 1)) (X := Zr)
      as [Hl Hr]; auto.
    eexists. split; [reflexivity|]. split; [now apply valid_mk|]. auto.
  - apply pow_invalid_exponent.
  - rewrite pow_mk by (auto; lia). reflexivity.
Qed.

Lemma pow_result_witness :
  ((1 <= 3)%Z ->
   exists alpha,
     pow (mkCPM 5 8 (mkMatrix 8 8 (bits Z8))) 3 = Ok alpha /\ valid alpha /\
     nrows alpha = nrows (mkCPM 5 8 (mkMatrix 8 8 (bits Z8))) /\
     ncols alpha = ncols (mkCPM 5 8 (mkMatrix 8 8 (bits Z8)))) /\
  ((3 < 1)%Z ->
   pow (mkCPM 5 8 (mkMatrix 8 8 (bits Z8))) 3 = Raise InvalidExponent) /\
  pow (mkCPM 5 8 (mkMatrix 8 8 (bits Z8))) 1 =
  Ok (mkCPM 5 8 (mkMatrix 8 8 (bits Z8))).
Proof.
  apply (pow_result (mkCPM 5 8 (mkMatrix 8 8 (bits Z8))) 3).
  apply validb_valid. reflexivity.
Defined.

(** Powers add up: [power(a + b)] is [power(a).compose(power(b))]. *)
Theorem pow_add (theta : CPM) (a b : Z) :
  valid theta -> (1 <= a)%Z -> (1 <= b)%Z ->
  pow theta (a + b) = (x <- pow theta a ;; y <- pow theta b ;; compose x y) /\
  exists alpha, pow theta (a + b) = Ok alpha.
Proof.
  intros Hv Ha Hb.
  destruct (valid_inv theta Hv) as [Zr (Ht & Hm & HZl & HZr)].
  set (m := _nrows theta) in *. set (n := _ncols theta) in *.
  rewrite Ht. clear Ht.
  rewrite !pow_mk by (auto; lia). cbn [bind].
  rewrite compose_mk by assumption.
  replace (Z.to_nat (a + b - 1))
    with (Z.to_nat (a - 1) + Z.to_nat (b - 1) + 1) by lia.
  rewrite pow_rows_add by assumption.
  split; [reflexivity|eexists; reflexivity].
Qed.

Lemma pow_add_witness :
  pow (mkCPM 5 8 (mkMatrix 8 8 (bits Z8))) (2 + 3) =
  (x <- pow (mkCPM 5 8 (mkMatrix 8 8 (bits Z8))) 2 ;;
   y <- pow (mkCPM 5 8 (mkMatrix 8 8 (bits Z8))) 3 ;; compose x y) /\
  exists alpha, pow (mkCPM 5 8 (mkMatrix 8 8 (bits Z8))) (2 + 3) = Ok alpha.
Proof.
  apply (pow_add (mkCPM 5 8 (mkMatrix 8 8 (bits Z8))) 2 3).
  - apply validb_valid. reflexivity.
  - lia.
  - lia.
Defined.

(** On a matrix whose number of rows has the parity of [m], [power(e)]
    acts as [e] successive applications of the CPM. *)
Theorem call_pow (theta : CPM) (e : Z) (A : matrix) :
  valid theta -> (1 <= e)%Z ->
  wf A -> GF2.ncols A = ncols theta -> 1 <= GF2.nrows A ->
  Nat.even (GF2.nrows A) = Z.even (nrows theta) ->
  (alpha <- pow theta e ;; call alpha A) = call_iter theta (Z.to_nat e) A /\
  exists B, call_iter theta (Z.to_nat e) A = Ok B.
Proof.
  intros Hv He Hwf Hc Hr Hpar.
  destruct (valid_inv theta Hv) as [Zr (Ht & Hm & HZl & HZr)].
  unfold nrows, ncols in *.
  set (m := _nrows theta) in *. set (n := _ncols theta) in *.
  rewrite Ht. clear Ht.
  rewrite pow_mk by assumption. cbn [bind].
  replace (Z.to_nat e) with (S (Z.to_nat (e - 1))) by lia.
  destruct (call_pow_rows m n Zr) with (k := Z.to_nat (e - 1)) (A := A)
    as (B & HB & Hit & _); auto.
  rewrite HB, Hit. split; [reflexivity|eexists; reflexivity].
Qed.

Lemma call_pow_witness :
  (alpha <- pow (mkCPM 5 8 (mkMatrix 8 8 (bits Z8))) 3 ;; call alpha A58) =
  call_iter (mkCPM 5 8 (mkMatrix 8 8 (bits Z8))) (Z.to_nat 3) A58 /\
  exists B,
    call_iter (mkCPM 5 8 (mkMatrix 8 8 (bits Z8))) (Z.to_nat 3) A58 = Ok B.
Proof.
  apply (call_pow (mkCPM 5 8 (mkMatrix 8 8 (bits Z8))) 3 A58).
  - apply validb_valid. reflexivity.
  - lia.
  - apply wfb_wf. reflexivity.
  - reflexivity.
  - simpl. lia.
  - reflexivity.
Defined.

(** For every invertible CPM, [power(order())] is the identity CPM and
    [power(order() + 1)] is the CPM itself. *)
Theorem pow_order_cycle (theta : CPM) :
  valid theta -> is_invertible theta = Ok true ->
  exists k,
    order theta = Ok k /\ (1 <= k)%Z /\
    (exists alpha, pow theta k = Ok alpha /\ is_identity alpha = true) /\
    pow theta (k + 1) = Ok theta.
Proof.
  intros Hv Hinv.
  destruct (valid_inv theta Hv) as [Zr (Ht & Hm & HZl & HZr)].
  set (m := _nrows theta) in *. set (n := _ncols theta) in *.
  rewrite Ht in *. clear Ht.
  rewrite is_invertible_mk in Hinv.
  pose proof (identity_rows_length n) as HIl.
  pose proof (rect_identity n) as HIr.
  destruct (Z.even m) eqn:He.
  - exists 2%Z. split; [|split; [lia|split]].
    + unfold order, nrows. cbn [_nrows]. now rewrite He.
    + eexists. split; [apply pow_mk; auto; lia|].
      unfold is_identity, parity_folding_matrix. cbn [_Z].
      change (Z.to_nat (2 - 1)) with 1. cbn [pow_rows].
      unfold compose_rows. rewrite He, (madd_self n), HZl by assumption.
      apply is_zero_repeat.
    + rewrite pow_mk by (auto; lia).
      change (Z.to_nat (2 + 1 - 1)) with 2. cbn [pow_rows].
      unfold compose_rows. rewrite He.
      rewrite (madd_cancel_r n Zr Zr) by auto. reflexivity.
  - destruct (inverse_rows n (madd Zr (identity_rows n))) as [N|] eqn:HN;
      [|discriminate].
    destruct (associated_shape n Zr HZl HZr) as [HMl HMr].
    destruct (multiplicative_order_spec n _ N HMl HMr HN)
      as [k (Hk & H1 & Hpow & Hmin)].
    exists (Z.of_nat k). split; [|split; [lia|split]].
    + now rewrite order_mk_odd.
    + eexists. split; [apply pow_odd; auto; lia|].
      unfold is_identity, parity_folding_matrix. cbn [_Z].
      rewrite Nat2Z.id, Hpow, madd_identity_self. apply is_zero_repeat.
    + rewrite pow_odd by (auto; lia).
      replace (Z.to_nat (Z.of_nat k + 1)) with (S k) by lia.
      cbn [mpow]. rewrite Hpow, (mmul_identity_l n n) by assumption.
      rewrite (madd_cancel_r n Zr) by (auto; congruence). reflexivity.
Qed.

Lemma pow_order_cycle_witness :
  exists k,
    order (mkCPM 5 8 (mkMatrix 8 8 (bits Z8))) = Ok k /\ (1 <= k)%Z /\
    (exists alpha,
       pow (mkCPM 5 8 (mkMatrix 8 8 (bits Z8))) k = Ok alpha /\
       is_identity alpha = true) /\
    pow (mkCPM 5 8 (mkMatrix 8 8 (bits Z8))) (k + 1) =
    Ok (mkCPM 5 8 (mkMatrix 8 8 (bits Z8))).
Proof.
  apply (pow_order_cycle (mkCPM 5 8 (mkMatrix 8 8 (bits Z8)))).
  - apply validb_valid. reflexivity.
  - reflexivity.
Defined.

(** The constructor establishes the invariant of the class: on success the
    CPM stores [m >= 1] and a square matrix over GF(2) with [n] columns; a
    nested array gives the matrix of its entries modulo 2. *)
Theorem new_establishes_invariant (m : Z) (Zin : Zarg) (theta : CPM) :
  (forall M, Zin = ZMatrix (MatGF2 M) -> wf M) ->
  new m Zin = Ok theta ->
  valid theta /\ nrows theta = m /\
  (forall M, Zin = ZMatrix (MatGF2 M) -> parity_folding_matrix theta = M) /\
  (forall l, Zin = ZList l ->
     ncols theta = length l /\
     rows (parity_folding_matrix theta) = map (map Z.odd) l).
Proof.
  intros Hin. unfold new.
  destruct (m <? 1)%Z eqn:E; [discriminate|]. apply Z.ltb_ge in E.
  destruct Zin as [l|[M|r c l]]; simpl.
  - unfold Matrix_of_list.
    destruct (forallb _ l) eqn:Hall; simpl; [|discriminate].
    unfold is_square. simpl.
    destruct (length l =? _) eqn:Hsq; simpl; [|discriminate].
    apply Nat.eqb_eq in Hsq. intros H; inversion H; subst theta; clear H.
    unfold nrows, ncols, parity_folding_matrix. simpl.
    split; [|split; [reflexivity|split; [discriminate|]]].
    + unfold valid, wf. simpl. repeat split; auto; try lia.
      * now rewrite length_map.
      * apply Forall_map, Forall_forall. intros r Hr.
        rewrite forallb_forall in Hall. specialize (Hall r Hr).
        apply Nat.eqb_eq in Hall. now rewrite length_map.
    + intros l' Hl'. inversion Hl'; subst l'. auto.
  - unfold is_square.
    destruct (GF2.nrows M =? GF2.ncols M) eqn:Hsq; simpl; [|discriminate].
    apply Nat.eqb_eq in Hsq. intros H; inversion H; subst theta; clear H.
    unfold nrows, ncols, parity_folding_matrix. simpl.
    specialize (Hin M eq_refl).
    split; [|split; [reflexivity|split]].
    + unfold valid. simpl. repeat split; auto; try apply Hin; lia.
    + intros M' HM'. now inversion HM'.
    + discriminate.
  - discriminate.
Qed.

Lemma new_establishes_invariant_witness :
  valid (mkCPM 5 8 (mkMatrix 8 8 (bits Z8))) /\
  nrows (mkCPM 5 8 (mkMatrix 8 8 (bits Z8))) = 5%Z /\
  (forall M, ZList Z8 = ZMatrix (MatGF2 M) ->
     parity_folding_matrix (mkCPM 5 8 (mkMatrix 8 8 (bits Z8))) = M) /\
  (forall l, ZList Z8 = ZList l ->
     ncols (mkCPM 5 8 (mkMatrix 8 8 (bits Z8))) = length l /\
     rows (parity_folding_matrix (mkCPM 5 8 (mkMatrix 8 8 (bits Z8)))) =
     map (map Z.odd) l).
Proof.
  apply (new_establishes_invariant 5 (ZList Z8)).
  - intros M H. discriminate H.
  - reflexivity.
Defined.

(** [is_equal] (and [==]) holds exactly between equal CPMs. *)
Theorem is_equal_iff (theta theta' : CPM) :
  valid theta -> valid theta' ->
  (is_equal theta theta' = Ok true <-> theta = theta') /\
  Cypm.eq theta theta' = is_equal theta theta' /\
  exists b, is_equal theta theta' = Ok b.
Proof.
  intros Hv Hv'.
  destruct (valid_inv theta Hv) as [Zr (Ht & _)].
  destruct (valid_inv theta' Hv') as [Zr' (Ht' & _)].
  split; [|split; [reflexivity|eexists; reflexivity]].
  rewrite Ht, Ht'.
  unfold is_equal, nrows, parity_folding_matrix, GF2.eqb. simpl. split.
  - intros H. inversion H as [Hb]. clear H.
    apply andb_true_iff in Hb as [Hm Hb].
    apply andb_true_iff in Hb as [Hb Hrows].
    apply andb_true_iff in Hb as [Hn _].
    apply Z.eqb_eq in Hm. apply Nat.eqb_eq in Hn.
    apply rows_eqb_eq in Hrows. congruence.
  - intros H. inversion H as [[Hm Hn Hrows]].
    rewrite Z.eqb_refl, !Nat.eqb_refl. simpl.
    f_equal. now apply rows_eqb_eq.
Qed.

Lemma is_equal_iff_witness :
  (is_equal (mkCPM 5 8 (mkMatrix 8 8 (bits Z8)))
            (mkCPM 5 8 (mkMatrix 8 8 (bits Z8))) = Ok true <->
   mkCPM 5 8 (mkMatrix 8 8 (bits Z8)) = mkCPM 5 8 (mkMatrix 8 8 (bits Z8))) /\
  Cypm.eq (mkCPM 5 8 (mkMatrix 8 8 (bits Z8)))
          (mkCPM 5 8 (mkMatrix 8 8 (bits Z8))) =
  is_equal (mkCPM 5 8 (mkMatrix 8 8 (bits Z8)))
           (mkCPM 5 8 (mkMatrix 8 8 (bits Z8))) /\
  exists b,
    is_equal (mkCPM 5 8 (mkMatrix 8 8 (bits Z8)))
             (mkCPM 5 8 (mkMatrix 8 8 (bits Z8))) = Ok b.
Proof.
  apply (is_equal_iff (mkCPM 5 8 (mkMatrix 8 8 (bits Z8)))
                      (mkCPM 5 8 (mkMatrix 8 8 (bits Z8))));
    apply validb_valid; reflexivity.
Defined.

End PowerClaims.
